(** * lora-gateway-bridge: packet-forwarder configuration

    A shallow embedding of [internal/gateway/pf_config.go]: the radio
    bandwidth table, the channel ordering, [getGatewayConfig] (channel to
    radio assignment) and [mergeConfig] (merge into the packet-forwarder
    JSON document), followed by the properties of these operations; then
    the removal of the comments in [loadConfigFile] and [invokePFRestart],
    with theirs. *)

From stdpp Require Import base tactics option list sorting gmap strings pretty vector.
From Stdlib Require Import ZArith Lia.
From Stdlib.Strings Require Import Byte Ascii.

Local Open Scope Z_scope.

(** ** Go's [int]

    All quantities of the source are Go [int]s.  They are modelled as [Z]
    with the two's complement wrap-around written out, for the 64 bits
    which an [int] has on amd64 and arm64 (the frequencies of the examples
    also fit the 32 bits of other platforms).  Division is Go's [/], which
    truncates towards zero ([Z.quot]). *)
Module GoInt.

Definition intSize : Z := 64.
Definition minInt : Z := - 2 ^ (intSize - 1).
Definition maxInt : Z := 2 ^ (intSize - 1) - 1.

Definition wrap (z : Z) : Z :=
  (z + 2 ^ (intSize - 1)) mod 2 ^ intSize - 2 ^ (intSize - 1).

Definition inRange (z : Z) : Prop := minInt <= z <= maxInt.

Definition add (a b : Z) : Z := wrap (a + b).
Definition sub (a b : Z) : Z := wrap (a - b).
Definition mul (a b : Z) : Z := wrap (a * b).
(** [a / b] for a divisor other than 0 and -1 (the source only divides by
    the constant 2). *)
Definition div (a b : Z) : Z := Z.quot a b.

Lemma wrap_inRange z : inRange (wrap z).
Proof.
  unfold inRange, wrap, minInt, maxInt, intSize.
  pose proof (Z.mod_pos_bound (z + 2 ^ (64 - 1)) (2 ^ 64) ltac:(lia)). lia.
Qed.

Lemma wrap_id z : inRange z -> wrap z = z.
Proof.
  unfold inRange, wrap, minInt, maxInt, intSize. intros H.
  rewrite Z.mod_small; lia.
Qed.

Lemma sub_exact a b : inRange (a - b) -> sub a b = a - b.
Proof. apply wrap_id. Qed.

Lemma add_exact a b : inRange (a + b) -> add a b = a + b.
Proof. apply wrap_id. Qed.

End GoInt.

Infix "+i" := GoInt.add (at level 50, left associativity).
Infix "-i" := GoInt.sub (at level 50, left associativity).
Infix "*i" := GoInt.mul (at level 40, left associativity).
Infix "/i" := GoInt.div (at level 40, left associativity).

(** ** Types of the packages the source imports *)

(** [band.Modulation] of [github.com/brocaar/lorawan/band] is a string type
    with the two constants below; a value of the type can be any string. *)
Module band.
Definition Modulation : Type := string.
Definition LoRaModulation : Modulation := "LORA".
Definition FSKModulation : Modulation := "FSK".
End band.

(** [gw.Channel] of [github.com/brocaar/loraserver/api/gw], with the fields
    the source reads. *)
Record Channel := mkChannel {
  Modulation : band.Modulation;
  Frequency : Z;
  Bandwidth : Z;
  Bitrate : Z;
  SpreadingFactors : list Z
}.

(** ** The radio bandwidth table *)

(** [radioBandwidthPerChannelBandwidth]: the bandwidth a single radio can
    cover, per channel bandwidth. *)
Definition radioBandwidthPerChannelBandwidth : gmap Z Z :=
  {[ 500000 := 1100000; 250000 := 1000000; 125000 := 925000 ]}.

Definition defaultRadioBandwidth : Z := 925000.

(** The lookup with its fallback,
    [radioBandwidth, ok := radioBandwidthPerChannelBandwidth[channelBandwidth];
     if !ok { radioBandwidth = defaultRadioBandwidth }],
    as written in [minRadioCenterFreq] and again in [getGatewayConfig]. *)
Definition radioBandwidth (channelBandwidth : Z) : Z :=
  match radioBandwidthPerChannelBandwidth !! channelBandwidth with
  | Some rb => rb
  | None => defaultRadioBandwidth
  end.

Lemma radioBandwidth_cases cb :
  radioBandwidth cb =
    if decide (cb = 500000) then 1100000
    else if decide (cb = 250000) then 1000000
    else 925000.
Proof.
  unfold radioBandwidth, radioBandwidthPerChannelBandwidth, defaultRadioBandwidth.
  repeat case_decide; subst; simplify_map_eq; try reflexivity.
  destruct (decide (cb = 125000)); subst; simplify_map_eq; reflexivity.
Qed.

(** ** Configuration records *)

Module radioConfig.
Record t := mk { Enable : bool; Freq : Z }.
End radioConfig.

Module multiSFChannelConfig.
Record t := mk { Enable : bool; Radio : nat; IF_ : Z; Freq : Z }.
End multiSFChannelConfig.

Module loRaSTDChannelConfig.
Record t := mk {
  Enable : bool; Radio : nat; IF_ : Z; Bandwidth : Z; SpreadFactor : Z; Freq : Z
}.
(** Go's zero value of the struct. *)
Definition zero : t := mk false 0%nat 0 0 0 0.
End loRaSTDChannelConfig.

Module fskChannelConfig.
Record t := mk {
  Enable : bool; Radio : nat; IF_ : Z; Bandwidth : Z; DataRate : Z; Freq : Z
}.
Definition zero : t := mk false 0%nat 0 0 0 0.
End fskChannelConfig.

Record gatewayConfiguration := mkGatewayConfiguration {
  Radios : list radioConfig.t;
  MultiSFChannels : list multiSFChannelConfig.t;
  LoRaSTDChannelConfig : loRaSTDChannelConfig.t;
  FSKChannelConfig : fskChannelConfig.t
}.

(** [var gc gatewayConfiguration] *)
Definition zeroGatewayConfiguration : gatewayConfiguration :=
  mkGatewayConfiguration [] [] loRaSTDChannelConfig.zero fskChannelConfig.zero.

(** How a Go function ends: it returns without an error, returns an error
    value, or panics at run time. *)
Inductive outcome (E : Type) : Type :=
| Ok
| Err (e : E)
| Panic.
Arguments Ok {E}.
Arguments Err {E} e.
Arguments Panic {E}.

(** ** Channel ordering *)

(** [channelByMinRadioCenterFrequency.minRadioCenterFreq], on the channel at
    the given index. *)
Definition minRadioCenterFreq (c : Channel) : Z :=
  let channelBandwidth := Bandwidth c *i 1000 in
  let radioBandwidth := radioBandwidth channelBandwidth in
  Frequency c -i (channelBandwidth /i 2) +i (radioBandwidth /i 2).

(** [channelByMinRadioCenterFrequency.Less] *)
Definition Less (ci cj : Channel) : bool :=
  minRadioCenterFreq ci <? minRadioCenterFreq cj.

(** *** [sort.Sort]

    [sort.Sort] belongs to Go's standard library.  Its documentation
    promises that it sorts the data in ascending order as determined by the
    [Less] method, exchanging elements with [Swap], and that the sort is not
    guaranteed to be stable.  An implementation of [sort.Sort] is therefore
    any function which returns a permutation of its argument and which, for a
    [Less] that is a strict weak ordering, returns it ordered. *)

Record StrictWeakOrder {A : Type} (less : A -> A -> bool) : Prop := {
  swo_asym : forall x y, less x y = true -> less y x = false;
  swo_negtrans : forall x y z, less x y = false -> less y z = false -> less x z = false
}.

(** No element is [less] than one before it. *)
Definition ascending {A : Type} (less : A -> A -> bool) (l : list A) : Prop :=
  StronglySorted (fun x y => less y x = false) l.

Record Sorter : Type := {
  sort_Sort : forall A : Type, (A -> A -> bool) -> list A -> list A;
  sort_Sort_perm : forall A (less : A -> A -> bool) l, sort_Sort A less l ≡ₚ l;
  sort_Sort_ascending : forall A (less : A -> A -> bool) l,
      StrictWeakOrder less -> ascending less (sort_Sort A less l)
}.
Arguments sort_Sort _ {A} _ _.

(** ** Channel to radio assignment *)

Inductive error : Type :=
| ErrFSKAlreadyConfigured        (* "gateway: fsk channel already configured" *)
| ErrLoRaSTDAlreadyConfigured    (* "gateway: lora std channel already configured" *)
| ErrInvalidModulation (m : band.Modulation). (* "gateway: invalid modulation: %s" *)

Definition Error (e : error) : string :=
  match e with
  | ErrFSKAlreadyConfigured => "gateway: fsk channel already configured"
  | ErrLoRaSTDAlreadyConfigured => "gateway: lora std channel already configured"
  | ErrInvalidModulation m => "gateway: invalid modulation: " +:+ m
  end.

(** The condition of the radio search:
    [channelMin >= r.Freq-(radioBandwidth/2) && channelMax <= r.Freq+(radioBandwidth/2)] *)
Definition covers (r : radioConfig.t) (channelMin channelMax radioBandwidth : Z) : bool :=
  (channelMin >=? radioConfig.Freq r -i (radioBandwidth /i 2))
  && (channelMax <=? radioConfig.Freq r +i (radioBandwidth /i 2)).

(** [for i, r := range gc.Radios { if ... { found = true; radio = i; break } }],
    on the radios from index [i] on. *)
Fixpoint searchRadio (radios : list radioConfig.t) (i : nat)
    (channelMin channelMax radioBandwidth : Z) : option nat :=
  match radios with
  | [] => None
  | r :: radios' =>
      if covers r channelMin channelMax radioBandwidth then Some i
      else searchRadio radios' (S i) channelMin channelMax radioBandwidth
  end.

(** The first half of the loop body: the radio of channel [c], which is
    appended to [gc.Radios] when no radio covers the channel. *)
Definition selectRadio (gc : gatewayConfiguration) (c : Channel)
    : gatewayConfiguration * nat :=
  let channelBandwidth := Bandwidth c *i 1000 in
  let channelMin := Frequency c -i (channelBandwidth /i 2) in
  let channelMax := Frequency c +i (channelBandwidth /i 2) in
  let radioBandwidth := radioBandwidth channelBandwidth in
  match searchRadio (Radios gc) 0 channelMin channelMax radioBandwidth with
  | Some radio => (gc, radio)
  | None =>
      let newRadio :=
        radioConfig.mk true
          (Frequency c -i (channelBandwidth /i 2) +i (radioBandwidth /i 2)) in
      let radios := Radios gc ++ [newRadio] in
      (mkGatewayConfiguration radios (MultiSFChannels gc)
         (LoRaSTDChannelConfig gc) (FSKChannelConfig gc),
       (length radios - 1)%nat)
  end.

(** The second half of the loop body: the slot of channel [c] on radio
    [radio].  [gc.Radios[radio]] panics when the index is out of range. *)
Definition configureChannel (gc : gatewayConfiguration) (c : Channel) (radio : nat)
    : gatewayConfiguration * outcome error :=
  let channelBandwidth := Bandwidth c *i 1000 in
  if String.eqb (Modulation c) band.FSKModulation then
    if fskChannelConfig.Enable (FSKChannelConfig gc) then
      (gc, Err ErrFSKAlreadyConfigured)
    else
      match Radios gc !! radio with
      | None => (gc, Panic)
      | Some r =>
          (mkGatewayConfiguration (Radios gc) (MultiSFChannels gc)
             (LoRaSTDChannelConfig gc)
             (fskChannelConfig.mk true radio
                (Frequency c -i radioConfig.Freq r)
                (Bandwidth c) (Bitrate c) (Frequency c)),
           Ok)
      end
  else if String.eqb (Modulation c) band.LoRaModulation
          && (length (SpreadingFactors c) =? 1)%nat then
    if loRaSTDChannelConfig.Enable (LoRaSTDChannelConfig gc) then
      (gc, Err ErrLoRaSTDAlreadyConfigured)
    else
      match Radios gc !! radio, SpreadingFactors c !! 0%nat with
      | Some r, Some sf =>
          (mkGatewayConfiguration (Radios gc) (MultiSFChannels gc)
             (loRaSTDChannelConfig.mk true radio
                (Frequency c -i radioConfig.Freq r)
                channelBandwidth sf (Frequency c))
             (FSKChannelConfig gc),
           Ok)
      | _, _ => (gc, Panic)
      end
  else if String.eqb (Modulation c) band.LoRaModulation then
    match Radios gc !! radio with
    | None => (gc, Panic)
    | Some r =>
        let multiSFChannel :=
          multiSFChannelConfig.mk true radio
            (Frequency c -i radioConfig.Freq r) (Frequency c) in
        (mkGatewayConfiguration (Radios gc) (MultiSFChannels gc ++ [multiSFChannel])
           (LoRaSTDChannelConfig gc) (FSKChannelConfig gc),
         Ok)
    end
  else
    (gc, Err (ErrInvalidModulation (Modulation c))).

(** One iteration of [for _, c := range conf.Channels]. *)
Definition assignChannel (gc : gatewayConfiguration) (c : Channel)
    : gatewayConfiguration * outcome error :=
  let '(gc1, radio) := selectRadio gc c in
  configureChannel gc1 c radio.

(** The loop over the channels; an error or a panic leaves the loop. *)
Fixpoint assignChannels (gc : gatewayConfiguration) (channels : list Channel)
    : gatewayConfiguration * outcome error :=
  match channels with
  | [] => (gc, Ok)
  | c :: channels' =>
      match assignChannel gc c with
      | (gc', Ok) => assignChannels gc' channels'
      | stop => stop
      end
  end.

(** [gw.GatewayConfigPacket], with the field the source reads. *)
Record GatewayConfigPacket := mkGatewayConfigPacket { Channels : list Channel }.

(** [conf.Channels] after
    [sort.Sort(channelByMinRadioCenterFrequency(conf.Channels))]. *)
Definition sortedChannels (S : Sorter) (conf : GatewayConfigPacket) : list Channel :=
  sort_Sort S Less (Channels conf).

Definition getGatewayConfig (S : Sorter) (conf : GatewayConfigPacket)
    : gatewayConfiguration * outcome error :=
  assignChannels zeroGatewayConfiguration (sortedChannels S conf).

(** ** Two implementations of [sort.Sort] *)

Module GoSort.

(** The inner loop of Go's [insertionSort],
    [for j := i; j > a && data.Less(j, j-1); j-- { data.Swap(j, j-1) }]:
    the element [x] at index [i] moves left over the elements it is less
    than.  [before] holds [data[a:i]] from index [i-1] down to [a]; the
    result holds [data[a:i+1]] in the same way. *)
Fixpoint sinkLeft {A : Type} (less : A -> A -> bool) (x : A) (before : list A)
    : list A :=
  match before with
  | [] => [x]
  | y :: before' =>
      if less x y then y :: sinkLeft less x before' else x :: y :: before'
  end.

(** [insertionSort(data, 0, len(data))] *)
Definition insertionSort {A : Type} (less : A -> A -> bool) (data : list A)
    : list A :=
  reverse (foldl (fun before x => sinkLeft less x before) [] data).

(** [data.Swap(i, j)] for [channelByMinRadioCenterFrequency]. *)
Definition Swap {A : Type} (i j : nat) (data : list A) : list A :=
  match data !! i, data !! j with
  | Some x, Some y => <[i:=y]> (<[j:=x]> data)
  | _, _ => data
  end.

(** The ShellSort pass of [quickSort] on a short slice,
    [for i := a + 6; i < b; i++ { if data.Less(i, i-6) { data.Swap(i, i-6) } }],
    for the [n] indices from [i] on. *)
Fixpoint shellPass {A : Type} (less : A -> A -> bool) (n i : nat) (data : list A)
    : list A :=
  match n with
  | O => data
  | S n' =>
      let data' :=
        match data !! i, data !! (i - 6)%nat with
        | Some x, Some y => if less x y then Swap i (i - 6) data else data
        | _, _ => data
        end in
      shellPass less n' (S i) data'
  end.

(** What [sort.Sort] of Go 1.6 to 1.18 does to a slice of at most 12
    elements: when there are at least two elements, a ShellSort pass with
    gap 6 followed by [insertionSort].  (For longer slices Go first
    partitions the slice; that part is not reproduced, the two passes
    below sort a slice of any length.) *)
Definition shortSort {A : Type} (less : A -> A -> bool) (data : list A) : list A :=
  if (1 <? length data)%nat then
    insertionSort less (shellPass less (length data - 6) 6 data)
  else data.

Section Facts.
Context {A : Type} (less : A -> A -> bool).

Lemma sinkLeft_perm x before : sinkLeft less x before ≡ₚ x :: before.
Proof.
  induction before as [|y p IH]; simpl; [done|].
  destruct (less x y); [|done].
  rewrite IH. apply Permutation_swap.
Qed.

Lemma insertionSort_perm data : insertionSort less data ≡ₚ data.
Proof.
  unfold insertionSort. rewrite reverse_Permutation.
  assert (H : forall acc, foldl (fun before x => sinkLeft less x before) acc data
                          ≡ₚ data ++ acc).
  { induction data as [|x l IH]; intros acc; simpl; [done|].
    rewrite IH, sinkLeft_perm. by rewrite Permutation_middle. }
  by rewrite H, app_nil_r.
Qed.

Lemma insert_perm (data : list A) i x y :
  data !! i = Some x -> x :: <[i:=y]> data ≡ₚ y :: data.
Proof.
  revert i; induction data as [|z l IH]; intros [|i] H; simplify_eq/=.
  - apply Permutation_swap.
  - rewrite Permutation_swap, (IH _ H). apply Permutation_swap.
Qed.

Lemma Swap_perm i j (data : list A) : Swap i j data ≡ₚ data.
Proof.
  unfold Swap.
  destruct (data !! i) as [x|] eqn:Hi; [|done].
  destruct (data !! j) as [y|] eqn:Hj; [|done].
  destruct (decide (i = j)) as [->|Hne].
  - simplify_eq. rewrite list_insert_insert_eq. by rewrite list_insert_id.
  - apply (Permutation_cons_inv (a := x)).
    rewrite (insert_perm (<[j:=x]> data) i x y).
    + apply insert_perm. done.
    + by rewrite list_lookup_insert_ne.
Qed.

Lemma shellPass_perm n i (data : list A) : shellPass less n i data ≡ₚ data.
Proof.
  revert i data; induction n as [|n IH]; intros i data; simpl; [done|].
  rewrite IH. repeat case_match; try done. apply Swap_perm.
Qed.

Lemma shortSort_perm data : shortSort less data ≡ₚ data.
Proof.
  unfold shortSort. case_match; [|done].
  by rewrite insertionSort_perm, shellPass_perm.
Qed.

Context (Hless : StrictWeakOrder less).

Lemma sinkLeft_descending x before :
  StronglySorted (fun u v => less u v = false) before ->
  StronglySorted (fun u v => less u v = false) (sinkLeft less x before).
Proof.
  induction 1 as [|y p Hp IH Hy]; simpl.
  - repeat constructor.
  - destruct (less x y) eqn:Hxy.
    + constructor; [done|].
      rewrite sinkLeft_perm. constructor; [|done].
      by apply (swo_asym _ Hless).
    + constructor; [by constructor|].
      constructor; [done|].
      eapply Forall_impl; [exact Hy|].
      intros v Hv. by apply (swo_negtrans _ Hless x y v).
Qed.

Lemma insertionSort_ascending data : ascending less (insertionSort less data).
Proof.
  unfold insertionSort, ascending.
  assert (H : forall acc,
             StronglySorted (fun u v => less u v = false) acc ->
             StronglySorted (fun u v => less u v = false)
               (foldl (fun before x => sinkLeft less x before) acc data)).
  { induction data as [|x l IH]; intros acc Hacc; simpl; [done|].
    by apply IH, sinkLeft_descending. }
  specialize (H [] (SSorted_nil _)).
  induction H as [|y p Hp IH Hy]; [constructor|].
  rewrite reverse_cons. apply StronglySorted_app. split_and!.
  - intros u v Hu Hv. apply list_elem_of_singleton in Hv as ->.
    rewrite elem_of_reverse in Hu. by eapply Forall_forall in Hy.
  - done.
  - repeat constructor.
Qed.

Lemma shortSort_ascending data : ascending less (shortSort less data).
Proof.
  unfold shortSort. case_match eqn:Hlen; [apply insertionSort_ascending|].
  apply Nat.ltb_ge in Hlen.
  destruct data as [|x [|y l]]; simpl in Hlen; try lia; repeat constructor.
Qed.
End Facts.

(** Insertion sort alone (what Go 1.19 and later run on at most 12
    elements). *)
Definition insertion : Sorter :=
  {| sort_Sort := @insertionSort;
     sort_Sort_perm := @insertionSort_perm;
     sort_Sort_ascending := fun A less l H => insertionSort_ascending less H l |}.

(** The short-slice path of Go 1.6 to 1.18. *)
Definition short : Sorter :=
  {| sort_Sort := @shortSort;
     sort_Sort_perm := @shortSort_perm;
     sort_Sort_ascending := fun A less l H => shortSort_ascending less H l |}.

End GoSort.

(** ** The configuration document *)

(** A value of the decoded JSON document, an [interface{}]: what
    [json.Unmarshal] stores in a [map[string]interface{}] (nil, bool,
    float64, string, []interface{}, map[string]interface{}) and the [int]s
    which [mergeConfig] stores.  [json.Unmarshal] builds a tree: no map is
    reachable along two paths, so that writing to the map found at a key is
    replacing the value at that key.  A [float64] is kept as its 64 bits. *)
#[warnings="-register-all"]
Inductive value : Type :=
| VNil
| VBool (b : bool)
| VFloat64 (bits : Z)
| VInt (n : Z)
| VString (s : string)
| VSlice (elems : list value)
| VMap (node : gmap string value).

(** The [%T] verb of [fmt]. *)
Definition typeName (v : value) : string :=
  match v with
  | VNil => "<nil>"
  | VBool _ => "bool"
  | VFloat64 _ => "float64"
  | VInt _ => "int"
  | VString _ => "string"
  | VSlice _ => "[]interface {}"
  | VMap _ => "map[string]interface {}"
  end.

(** [configFile]; [None] is the nil map, which a field keeps when the JSON
    file has no member of its name. *)
Record configFile := mkConfigFile {
  SX1301Conf : option (gmap string value);
  GatewayConf : option (gmap string value)
}.

(** [lorawan.EUI64], an array of 8 bytes, and its [String] method
    ([hex.EncodeToString]). *)
Definition EUI64 : Type := vec byte 8.

Definition hexDigit (n : N) : ascii :=
  match n with
  | 0 => "0" | 1 => "1" | 2 => "2" | 3 => "3" | 4 => "4" | 5 => "5"
  | 6 => "6" | 7 => "7" | 8 => "8" | 9 => "9" | 10 => "a" | 11 => "b"
  | 12 => "c" | 13 => "d" | 14 => "e" | _ => "f"
  end%N%char.

Definition EUI64_String (mac : EUI64) : string :=
  foldr (fun b s =>
           String (hexDigit (Byte.to_N b / 16))
             (String (hexDigit (Byte.to_N b mod 16)) s))
    EmptyString (vec_to_list mac).

(** The error of [mergeConfig],
    [fmt.Errorf("expected %s to be of type map[string]interface{}, got %T", key, ...)]. *)
Inductive mergeError : Type :=
| ErrExpectedMap (key : string) (got : string).

Definition mergeError_Error (e : mergeError) : string :=
  match e with
  | ErrExpectedMap key got =>
      "expected " +:+ key +:+ " to be of type map[string]interface{}, got " +:+ got
  end.

(** [m[key]]: the nil interface when the map is nil or has no such key. *)
Definition index (m : option (gmap string value)) (key : string) : value :=
  match m with
  | Some m => default VNil (m !! key)
  | None => VNil
  end.

(** The assignments [node[k] = v], in order. *)
Definition assignAll (node : gmap string value) (kvs : list (string * value))
    : gmap string value :=
  foldl (fun node kv => <[kv.1 := kv.2]> node) node kvs.

(** Running a step after another, unless the first one ended the function. *)
Definition andThen {St E : Type} (r : St * outcome E) (k : St -> St * outcome E)
    : St * outcome E :=
  match r with
  | (s, Ok) => k s
  | stop => stop
  end.
Notation "r ;> k" := (andThen r k) (at level 61, left associativity).

(** [node, ok := config.SX1301Conf[key].(map[string]interface{})], the
    return of the error when [!ok], and the assignments to [node]. *)
Definition updateNode (key : string) (kvs : list (string * value)) (config : configFile)
    : configFile * outcome mergeError :=
  match index (SX1301Conf config) key with
  | VMap node =>
      (mkConfigFile
         ((fun m => <[key := VMap (assignAll node kvs)]> m) <$> SX1301Conf config)
         (GatewayConf config),
       Ok)
  | v => (config, Err (ErrExpectedMap key (typeName v)))
  end.

Definition radioKey (i : nat) : string := "radio_" +:+ pretty i.
Definition multiSFKey (i : nat) : string := "chan_multiSF_" +:+ pretty i.

Definition radioValues (r : radioConfig.t) : list (string * value) :=
  [("enable", VBool (radioConfig.Enable r)); ("freq", VInt (radioConfig.Freq r))].

Definition multiSFValues (c : multiSFChannelConfig.t) : list (string * value) :=
  [("enable", VBool (multiSFChannelConfig.Enable c));
   ("radio", VInt (Z.of_nat (multiSFChannelConfig.Radio c)));
   ("if", VInt (multiSFChannelConfig.IF_ c))].

Definition loRaSTDValues (c : loRaSTDChannelConfig.t) : list (string * value) :=
  [("enable", VBool (loRaSTDChannelConfig.Enable c));
   ("radio", VInt (Z.of_nat (loRaSTDChannelConfig.Radio c)));
   ("if", VInt (loRaSTDChannelConfig.IF_ c));
   ("bandwidth", VInt (loRaSTDChannelConfig.Bandwidth c));
   ("spread_factor", VInt (loRaSTDChannelConfig.SpreadFactor c))].

Definition fskValues (c : fskChannelConfig.t) : list (string * value) :=
  [("enable", VBool (fskChannelConfig.Enable c));
   ("radio", VInt (Z.of_nat (fskChannelConfig.Radio c)));
   ("if", VInt (fskChannelConfig.IF_ c));
   ("bandwidth", VInt (fskChannelConfig.Bandwidth c));
   ("datarate", VInt (fskChannelConfig.DataRate c))].

(** [for i, r := range newConfig.Radios], from index [i] on. *)
Fixpoint updateRadios (i : nat) (radios : list radioConfig.t) (config : configFile)
    : configFile * outcome mergeError :=
  match radios with
  | [] => (config, Ok)
  | r :: radios' =>
      updateNode (radioKey i) (radioValues r) config ;> updateRadios (S i) radios'
  end.

(** [for i, c := range newConfig.MultiSFChannels], from index [i] on. *)
Fixpoint updateMultiSFChannels (i : nat) (channels : list multiSFChannelConfig.t)
    (config : configFile) : configFile * outcome mergeError :=
  match channels with
  | [] => (config, Ok)
  | c :: channels' =>
      updateNode (multiSFKey i) (multiSFValues c) config
      ;> updateMultiSFChannels (S i) channels'
  end.

(** [config.GatewayConf["gateway_ID"] = mac.String()]; an assignment to an
    entry of a nil map panics. *)
Definition updateGatewayID (mac : EUI64) (config : configFile)
    : configFile * outcome mergeError :=
  match GatewayConf config with
  | Some gateway =>
      (mkConfigFile (SX1301Conf config)
         (Some (<["gateway_ID" := VString (EUI64_String mac)]> gateway)),
       Ok)
  | None => (config, Panic)
  end.

(** [mergeConfig]: the document after the call, which the caller shares
    with the function, and the way the call ends. *)
Definition mergeConfig (mac : EUI64) (config : configFile)
    (newConfig : gatewayConfiguration) : configFile * outcome mergeError :=
  updateRadios 0 (Radios newConfig) config
  ;> updateMultiSFChannels 0 (MultiSFChannels newConfig)
  ;> updateNode "chan_Lora_std" (loRaSTDValues (LoRaSTDChannelConfig newConfig))
  ;> updateNode "chan_FSK" (fskValues (FSKChannelConfig newConfig))
  ;> updateGatewayID mac.

(** ** Properties of the assignment *)

(** The quantities the loop body computes from a channel. *)
Definition channelBandwidthOf (c : Channel) : Z := Bandwidth c *i 1000.
Definition channelMinOf (c : Channel) : Z := Frequency c -i (channelBandwidthOf c /i 2).
Definition channelMaxOf (c : Channel) : Z := Frequency c +i (channelBandwidthOf c /i 2).
Definition radioBandwidthOf (c : Channel) : Z := radioBandwidth (channelBandwidthOf c).

(** The coverage window of a radio at [center], for the radio bandwidth of
    channel [c], contains the channel. *)
Definition windowContains (center : Z) (c : Channel) : Prop :=
  center -i (radioBandwidthOf c /i 2) <= channelMinOf c
  /\ channelMaxOf c <= center +i (radioBandwidthOf c /i 2).

Lemma covers_windowContains r c :
  covers r (channelMinOf c) (channelMaxOf c) (radioBandwidthOf c) = true
  <-> windowContains (radioConfig.Freq r) c.
Proof.
  unfold covers, windowContains.
  rewrite andb_true_iff, Z.geb_le, Z.leb_le. reflexivity.
Qed.

Lemma covers_not_windowContains r c :
  covers r (channelMinOf c) (channelMaxOf c) (radioBandwidthOf c) = false
  <-> ~ windowContains (radioConfig.Freq r) c.
Proof.
  rewrite <- covers_windowContains. destruct (covers _ _ _ _); split; congruence.
Qed.

Lemma searchRadio_Some radios i cmin cmax rbw k :
  searchRadio radios i cmin cmax rbw = Some k ->
  exists j r, k = (i + j)%nat /\ radios !! j = Some r
    /\ covers r cmin cmax rbw = true
    /\ forall j' r', (j' < j)%nat -> radios !! j' = Some r' ->
         covers r' cmin cmax rbw = false.
Proof.
  revert i; induction radios as [|r0 rs IH]; intros i H; simpl in H; [done|].
  destruct (covers r0 cmin cmax rbw) eqn:Hc.
  - simplify_eq. exists 0%nat, r0. split_and!; [lia|done|done|]. intros; lia.
  - destruct (IH _ H) as (j & r & -> & Hj & Hr & Hfirst).
    exists (S j), r. split_and!; [lia|done|done|].
    intros [|j'] r' Hlt Hr'; simplify_eq/=; [done|].
    eapply Hfirst; [|done]. lia.
Qed.

Lemma searchRadio_None radios i cmin cmax rbw :
  searchRadio radios i cmin cmax rbw = None ->
  Forall (fun r => covers r cmin cmax rbw = false) radios.
Proof.
  revert i; induction radios as [|r0 rs IH]; intros i H; simpl in H; [constructor|].
  destruct (covers r0 cmin cmax rbw) eqn:Hc; [done|].
  constructor; eauto.
Qed.

(** What [selectRadio] does to the radios: the first radio that covers the
    channel, or a new radio at the end. *)
Definition firstFit (before after : list radioConfig.t) (radio : nat) (c : Channel)
    : Prop :=
  (exists r, before !! radio = Some r
     /\ windowContains (radioConfig.Freq r) c
     /\ (forall j r', (j < radio)%nat -> before !! j = Some r' ->
           ~ windowContains (radioConfig.Freq r') c)
     /\ after = before)
  \/ ((forall r, r ∈ before -> ~ windowContains (radioConfig.Freq r) c)
      /\ after = before ++ [radioConfig.mk true (channelMinOf c +i (radioBandwidthOf c /i 2))]
      /\ radio = length before).

Lemma selectRadio_spec gc c gc1 radio :
  selectRadio gc c = (gc1, radio) ->
  firstFit (Radios gc) (Radios gc1) radio c
  /\ MultiSFChannels gc1 = MultiSFChannels gc
  /\ LoRaSTDChannelConfig gc1 = LoRaSTDChannelConfig gc
  /\ FSKChannelConfig gc1 = FSKChannelConfig gc.
Proof.
  unfold selectRadio.
  fold (channelBandwidthOf c). fold (channelMinOf c). fold (channelMaxOf c).
  fold (radioBandwidthOf c).
  destruct (searchRadio _ _ _ _ _) as [k|] eqn:Hs; intros H; simplify_eq/=.
  - split; [|done]. left.
    apply searchRadio_Some in Hs as (j & r & -> & Hj & Hr & Hfirst). simpl.
    exists r. split_and!; [done|by apply covers_windowContains| |done].
    intros j' r' Hlt Hr'. apply covers_not_windowContains. eauto.
  - split; [|done]. right. split_and!.
    + apply searchRadio_None in Hs. rewrite Forall_forall in Hs.
      intros r Hr. apply covers_not_windowContains. eauto.
    + done.
    + rewrite length_app. simpl. lia.
Qed.

Lemma firstFit_lookup before after radio c :
  firstFit before after radio c ->
  (exists r, after !! radio = Some r) /\ (exists ext, after = before ++ ext).
Proof.
  intros [(r & Hr & _ & _ & ->)|(_ & -> & ->)].
  - split; [eauto|]. exists []. by rewrite app_nil_r.
  - split; [|eauto]. rewrite lookup_app_r, Nat.sub_diag by lia. simpl. eauto.
Qed.

(** *** The kinds of channel *)

Definition isFSK (c : Channel) : bool := String.eqb (Modulation c) band.FSKModulation.
Definition isLoRa (c : Channel) : bool := String.eqb (Modulation c) band.LoRaModulation.
(** LoRa with exactly one spreading factor. *)
Definition isSingleSF (c : Channel) : bool :=
  isLoRa c && (length (SpreadingFactors c) =? 1)%nat.
(** LoRa with another number of spreading factors. *)
Definition isMultiSF (c : Channel) : bool :=
  isLoRa c && negb (length (SpreadingFactors c) =? 1)%nat.
(** A modulation other than LoRa and FSK. *)
Definition isInvalid (c : Channel) : bool := negb (isFSK c) && negb (isLoRa c).

Lemma isFSK_not_LoRa c : isFSK c = true -> isLoRa c = false.
Proof.
  unfold isFSK, isLoRa. intros H%String.eqb_eq. rewrite H. reflexivity.
Qed.

Lemma isInvalid_spec c :
  isInvalid c = true
  <-> Modulation c <> band.LoRaModulation /\ Modulation c <> band.FSKModulation.
Proof.
  unfold isInvalid, isFSK, isLoRa.
  rewrite andb_true_iff, !negb_true_iff, !String.eqb_neq. tauto.
Qed.

(** *** The second half of the loop body, case by case *)

Inductive configured (gc : gatewayConfiguration) (c : Channel) (radio : nat)
    (r : radioConfig.t) : gatewayConfiguration * outcome error -> Prop :=
| configured_fsk :
    isFSK c = true ->
    fskChannelConfig.Enable (FSKChannelConfig gc) = false ->
    configured gc c radio r
      (mkGatewayConfiguration (Radios gc) (MultiSFChannels gc) (LoRaSTDChannelConfig gc)
         (fskChannelConfig.mk true radio (Frequency c -i radioConfig.Freq r)
            (Bandwidth c) (Bitrate c) (Frequency c)),
       Ok)
| configured_fsk_again :
    isFSK c = true ->
    fskChannelConfig.Enable (FSKChannelConfig gc) = true ->
    configured gc c radio r (gc, Err ErrFSKAlreadyConfigured)
| configured_std sf :
    isFSK c = false -> isSingleSF c = true ->
    SpreadingFactors c = [sf] ->
    loRaSTDChannelConfig.Enable (LoRaSTDChannelConfig gc) = false ->
    configured gc c radio r
      (mkGatewayConfiguration (Radios gc) (MultiSFChannels gc)
         (loRaSTDChannelConfig.mk true radio (Frequency c -i radioConfig.Freq r)
            (channelBandwidthOf c) sf (Frequency c))
         (FSKChannelConfig gc),
       Ok)
| configured_std_again :
    isFSK c = false -> isSingleSF c = true ->
    loRaSTDChannelConfig.Enable (LoRaSTDChannelConfig gc) = true ->
    configured gc c radio r (gc, Err ErrLoRaSTDAlreadyConfigured)
| configured_multi :
    isFSK c = false -> isSingleSF c = false -> isLoRa c = true ->
    configured gc c radio r
      (mkGatewayConfiguration (Radios gc)
         (MultiSFChannels gc ++
            [multiSFChannelConfig.mk true radio (Frequency c -i radioConfig.Freq r)
               (Frequency c)])
         (LoRaSTDChannelConfig gc) (FSKChannelConfig gc),
       Ok)
| configured_invalid :
    isFSK c = false -> isLoRa c = false ->
    configured gc c radio r (gc, Err (ErrInvalidModulation (Modulation c))).

Lemma configureChannel_configured gc c radio r :
  Radios gc !! radio = Some r ->
  configured gc c radio r (configureChannel gc c radio).
Proof.
  intros Hr. unfold configureChannel. rewrite Hr.
  fold (isFSK c). fold (isLoRa c). fold (channelBandwidthOf c).
  destruct (isFSK c) eqn:Hfsk.
  { destruct (fskChannelConfig.Enable _) eqn:He; by constructor. }
  destruct (isLoRa c) eqn:Hlora; simpl; [|by constructor].
  destruct (length (SpreadingFactors c) =? 1)%nat eqn:Hlen.
  - assert (Hstd : isSingleSF c = true) by (unfold isSingleSF; by rewrite Hlora, Hlen).
    destruct (loRaSTDChannelConfig.Enable _) eqn:He; [by constructor|].
    apply Nat.eqb_eq in Hlen.
    destruct (SpreadingFactors c) as [|sf [|??]] eqn:Hsf; simplify_eq/=.
    by eapply configured_std.
  - apply configured_multi; [done| |done].
    unfold isSingleSF. by rewrite Hlora, Hlen.
Qed.

Lemma assignChannel_cases gc c :
  exists gc1 radio r,
    selectRadio gc c = (gc1, radio)
    /\ firstFit (Radios gc) (Radios gc1) radio c
    /\ MultiSFChannels gc1 = MultiSFChannels gc
    /\ LoRaSTDChannelConfig gc1 = LoRaSTDChannelConfig gc
    /\ FSKChannelConfig gc1 = FSKChannelConfig gc
    /\ Radios gc1 !! radio = Some r
    /\ configured gc1 c radio r (assignChannel gc c).
Proof.
  unfold assignChannel.
  destruct (selectRadio gc c) as [gc1 radio] eqn:Hsel.
  destruct (selectRadio_spec _ _ _ _ Hsel) as (Hfit & Hm & Hs & Hf).
  destruct (firstFit_lookup _ _ _ _ Hfit) as [[r Hr] _].
  exists gc1, radio, r. split_and!; try done.
  by apply configureChannel_configured.
Qed.

(** The loop, split at a channel. *)
Lemma assignChannels_app gc pre post :
  assignChannels gc (pre ++ post) =
    match assignChannels gc pre with
    | (gc', Ok) => assignChannels gc' post
    | stop => stop
    end.
Proof.
  revert gc; induction pre as [|c pre IH]; intros gc; simpl; [done|].
  destruct (assignChannel gc c) as [gc' [| |]]; [apply IH|done..].
Qed.

(** *** The invariant of the loop *)

(** A slot names a radio of [radios] and holds the intermediate frequency,
    the difference from the channel frequency to the center of that radio. *)
Definition slotOnRadio (radios : list radioConfig.t) (radio : nat) (ifo freq : Z)
    : Prop :=
  exists r, radios !! radio = Some r /\ ifo = freq -i radioConfig.Freq r.

Record wellFormed (gc : gatewayConfiguration) : Prop := {
  wf_radios : Forall (fun r => radioConfig.Enable r = true) (Radios gc);
  wf_multiSF :
    Forall (fun m => multiSFChannelConfig.Enable m = true
                     /\ slotOnRadio (Radios gc) (multiSFChannelConfig.Radio m)
                          (multiSFChannelConfig.IF_ m) (multiSFChannelConfig.Freq m))
      (MultiSFChannels gc);
  wf_loRaSTD :
    loRaSTDChannelConfig.Enable (LoRaSTDChannelConfig gc) = true ->
    slotOnRadio (Radios gc) (loRaSTDChannelConfig.Radio (LoRaSTDChannelConfig gc))
      (loRaSTDChannelConfig.IF_ (LoRaSTDChannelConfig gc))
      (loRaSTDChannelConfig.Freq (LoRaSTDChannelConfig gc));
  wf_fsk :
    fskChannelConfig.Enable (FSKChannelConfig gc) = true ->
    slotOnRadio (Radios gc) (fskChannelConfig.Radio (FSKChannelConfig gc))
      (fskChannelConfig.IF_ (FSKChannelConfig gc))
      (fskChannelConfig.Freq (FSKChannelConfig gc))
}.

Lemma slotOnRadio_app radios ext radio ifo freq :
  slotOnRadio radios radio ifo freq -> slotOnRadio (radios ++ ext) radio ifo freq.
Proof.
  intros (r & Hr & ->). exists r. split; [|done]. by apply lookup_app_l_Some.
Qed.

Lemma wellFormed_zero : wellFormed zeroGatewayConfiguration.
Proof. split; simpl; try constructor; discriminate. Qed.

Lemma firstFit_enabled before after radio c :
  firstFit before after radio c ->
  Forall (fun r => radioConfig.Enable r = true) before ->
  Forall (fun r => radioConfig.Enable r = true) after.
Proof.
  intros [(r & _ & _ & _ & ->)|(_ & -> & _)] H; [done|].
  apply Forall_app. split; [done|]. by repeat constructor.
Qed.

Lemma assignChannel_wellFormed gc c :
  wellFormed gc -> wellFormed (assignChannel gc c).1.
Proof.
  intros [Hr Hm Hs Hf].
  destruct (assignChannel_cases gc c)
    as (gc1 & radio & r & _ & Hfit & Em & Es & Ef & Hrad & Hconf).
  destruct (firstFit_lookup _ _ _ _ Hfit) as [_ [ext Hext]].
  assert (Hwf1 : wellFormed gc1).
  { split.
    - by eapply firstFit_enabled.
    - rewrite Em, Hext. eapply Forall_impl; [exact Hm|].
      intros m [? ?]. split; [done|]. by apply slotOnRadio_app.
    - rewrite Es, Hext. intros H. by apply slotOnRadio_app, Hs.
    - rewrite Ef, Hext. intros H. by apply slotOnRadio_app, Hf. }
  destruct Hwf1 as [Hr1 Hm1 Hs1 Hf1].
  destruct Hconf; simpl; split; simpl; try done.
  - intros _. by exists r.
  - intros _. by exists r.
  - apply Forall_app. split; [done|].
    repeat constructor. by exists r.
Qed.

Lemma assignChannel_no_panic gc c : (assignChannel gc c).2 <> Panic.
Proof.
  destruct (assignChannel_cases gc c) as (? & ? & ? & _ & _ & _ & _ & _ & _ & Hconf).
  by destruct Hconf.
Qed.

Lemma assignChannels_wellFormed gc channels :
  wellFormed gc -> wellFormed (assignChannels gc channels).1.
Proof.
  revert gc; induction channels as [|c l IH]; intros gc Hwf; simpl; [done|].
  pose proof (assignChannel_wellFormed gc c Hwf) as H.
  destruct (assignChannel gc c) as [gc' [| |]]; simpl in *; auto.
Qed.

Lemma assignChannels_no_panic gc channels : (assignChannels gc channels).2 <> Panic.
Proof.
  revert gc; induction channels as [|c l IH]; intros gc; simpl; [done|].
  pose proof (assignChannel_no_panic gc c) as H.
  destruct (assignChannel gc c) as [gc' [| |]]; simpl in *; auto.
Qed.

(** *** Which channel stops the loop *)

(** The number of channels of a kind. *)
Fixpoint count (kind : Channel -> bool) (channels : list Channel) : nat :=
  match channels with
  | [] => 0
  | c :: channels' => ((if kind c then 1 else 0) + count kind channels')%nat
  end.

Lemma count_perm kind l1 l2 : l1 ≡ₚ l2 -> count kind l1 = count kind l2.
Proof. induction 1; simpl; lia. Qed.

Lemma count_app kind l1 l2 : count kind (l1 ++ l2) = (count kind l1 + count kind l2)%nat.
Proof. induction l1; simpl; lia. Qed.

(** The way the loop ends, as a function of the two [Enable] flags and the
    kinds of the channels only. *)
Fixpoint loopEnd (fsk std : bool) (channels : list Channel) : outcome error :=
  match channels with
  | [] => Ok
  | c :: channels' =>
      if isFSK c then
        if fsk then Err ErrFSKAlreadyConfigured else loopEnd true std channels'
      else if isSingleSF c then
        if std then Err ErrLoRaSTDAlreadyConfigured else loopEnd fsk true channels'
      else if isLoRa c then loopEnd fsk std channels'
      else Err (ErrInvalidModulation (Modulation c))
  end.

Lemma isSingleSF_isLoRa c : isSingleSF c = true -> isLoRa c = true.
Proof. unfold isSingleSF. by intros [? _]%andb_true_iff. Qed.

Lemma assignChannels_loopEnd gc channels :
  (assignChannels gc channels).2 =
    loopEnd (fskChannelConfig.Enable (FSKChannelConfig gc))
      (loRaSTDChannelConfig.Enable (LoRaSTDChannelConfig gc)) channels.
Proof.
  revert gc; induction channels as [|c l IH]; intros gc; simpl; [done|].
  destruct (assignChannel_cases gc c)
    as (gc1 & radio & r & _ & _ & _ & Es & Ef & _ & Hconf).
  rewrite <- Es, <- Ef.
  destruct Hconf as [Hk He|Hk He|sf Hk1 Hk2 Hsf He|Hk1 Hk2 He|Hk1 Hk2 Hk3|Hk1 Hk2];
    rewrite ?Hk, ?Hk1, ?Hk2, ?Hk3, ?He; try rewrite IH; simpl; try done.
  unfold isSingleSF. by rewrite Hk2.
Qed.

Definition b2n (b : bool) : nat := if b then 1 else 0.

(** The loop ends without an error exactly when no channel has an invalid
    modulation and each of the two single slots is asked for at most once. *)
Lemma loopEnd_Ok fsk std channels :
  loopEnd fsk std channels = Ok
  <-> Forall (fun c => isInvalid c = false) channels
      /\ (b2n fsk + count isFSK channels <= 1)%nat
      /\ (b2n std + count isSingleSF channels <= 1)%nat.
Proof.
  revert fsk std; induction channels as [|c l IH]; intros fsk std; simpl.
  { split; [intros _|done]. split_and!; [constructor|destruct fsk|destruct std];
      simpl; lia. }
  rewrite Forall_cons. unfold isInvalid at 1.
  destruct (isFSK c) eqn:Hfsk.
  { rewrite (isFSK_not_LoRa _ Hfsk).
    assert (isSingleSF c = false) as ->
      by (unfold isSingleSF; by rewrite (isFSK_not_LoRa _ Hfsk)).
    destruct fsk; simpl.
    - split; [done|]. intros (_ & ? & _). lia.
    - rewrite IH. simpl. intuition lia. }
  destruct (isSingleSF c) eqn:Hstd.
  { rewrite (isSingleSF_isLoRa _ Hstd).
    destruct std; simpl.
    - split; [done|]. intros (_ & _ & ?). lia.
    - rewrite IH. simpl. intuition lia. }
  destruct (isLoRa c) eqn:Hlora; simpl.
  - rewrite IH. intuition lia.
  - split; [done|]. by intros [[? _] _].
Qed.

(** The loop ends with the invalid modulation error exactly at the first
    channel of an invalid modulation, when the loop gets to it. *)
Lemma loopEnd_invalid fsk std channels m :
  loopEnd fsk std channels = Err (ErrInvalidModulation m)
  <-> exists pre c post,
        channels = pre ++ c :: post /\ Modulation c = m /\ isInvalid c = true
        /\ loopEnd fsk std pre = Ok.
Proof.
  revert fsk std; induction channels as [|c l IH]; intros fsk std; simpl.
  { split; [done|]. intros (pre & c & post & H & _). by destruct pre. }
  assert (Hcons : forall fsk' std',
             (isInvalid c = false) ->
             (forall pre', loopEnd fsk std (c :: pre') = loopEnd fsk' std' pre') ->
             (loopEnd fsk' std' l = Err (ErrInvalidModulation m)
              <-> exists pre c0 post, c :: l = pre ++ c0 :: post /\ Modulation c0 = m
                    /\ isInvalid c0 = true /\ loopEnd fsk std pre = Ok)).
  { intros fsk' std' Hvalid Hstep. rewrite IH. split.
    - intros (pre & c0 & post & -> & ? & ? & ?).
      exists (c :: pre), c0, post. split_and!; try done. by rewrite Hstep.
    - intros (pre & c0 & post & Heq & ? & ? & Hpre).
      destruct pre as [|c1 pre]; simplify_eq/=; [congruence|].
      exists pre, c0, post. split_and!; try done. by rewrite <- Hstep. }
  assert (Hstop : forall e, (forall pre', loopEnd fsk std (c :: pre') = Err e) ->
             isInvalid c = false ->
             ~ exists pre c0 post, c :: l = pre ++ c0 :: post /\ Modulation c0 = m
                    /\ isInvalid c0 = true /\ loopEnd fsk std pre = Ok).
  { intros e Hstep Hvalid (pre & c0 & post & Heq & ? & ? & Hpre).
    destruct pre as [|c1 pre]; simplify_eq/=; [congruence|].
    by rewrite Hstep in Hpre. }
  unfold isInvalid in Hcons, Hstop.
  destruct (isFSK c) eqn:Hfsk.
  { destruct fsk.
    - split; [done|]. intros H. exfalso. revert H.
      apply (Hstop ErrFSKAlreadyConfigured); [|done].
      intros pre'. simpl. by rewrite Hfsk.
    - apply Hcons; [done|]. intros pre'. simpl. by rewrite Hfsk. }
  destruct (isSingleSF c) eqn:Hstd.
  { pose proof (isSingleSF_isLoRa _ Hstd) as Hlora.
    destruct std.
    - split; [done|]. intros H. exfalso. revert H.
      apply (Hstop ErrLoRaSTDAlreadyConfigured); [|by rewrite Hlora].
      intros pre'. simpl. by rewrite Hfsk, Hstd.
    - apply Hcons; [by rewrite Hlora|]. intros pre'. simpl. by rewrite Hfsk, Hstd. }
  destruct (isLoRa c) eqn:Hlora.
  - apply Hcons; [done|]. intros pre'. simpl. by rewrite Hfsk, Hstd, Hlora.
  - split.
    + intros [= <-]. exists [], c, l. split_and!; try done.
      unfold isInvalid. by rewrite Hfsk, Hlora.
    + intros (pre & c0 & post & Heq & <- & Hinv & Hpre).
      destruct pre as [|c1 pre]; simplify_eq/=; [done|].
      by rewrite Hfsk, Hstd, Hlora in Hpre.
Qed.


(** *** The slot of a channel *)

(** The slot of channel [c] in [gc] is on radio [radio] with intermediate
    frequency [ifo]: the FSK slot for an FSK channel, the LoRa STD slot for a
    LoRa channel of one spreading factor, one of the multi-SF slots for
    another LoRa channel. *)
Definition slotOf (gc : gatewayConfiguration) (c : Channel) (radio : nat) (ifo : Z)
    : Prop :=
  (isFSK c = true
   /\ FSKChannelConfig gc =
        fskChannelConfig.mk true radio ifo (Bandwidth c) (Bitrate c) (Frequency c))
  \/ (isFSK c = false /\ isSingleSF c = true
      /\ exists sf, SpreadingFactors c = [sf]
           /\ LoRaSTDChannelConfig gc =
                loRaSTDChannelConfig.mk true radio ifo (channelBandwidthOf c) sf
                  (Frequency c))
  \/ (isFSK c = false /\ isSingleSF c = false /\ isLoRa c = true
      /\ multiSFChannelConfig.mk true radio ifo (Frequency c) ∈ MultiSFChannels gc).

(** Channel [c] has its slot, on a radio of [gc], with the intermediate
    frequency [Frequency c - center] of Go's [int] subtraction. *)
Definition assigned (gc : gatewayConfiguration) (c : Channel) : Prop :=
  exists radio r,
    Radios gc !! radio = Some r
    /\ slotOf gc c radio (Frequency c -i radioConfig.Freq r).

Lemma assignChannel_assigned gc c gc' :
  assignChannel gc c = (gc', Ok) ->
  assigned gc' c /\ forall c0, assigned gc c0 -> assigned gc' c0.
Proof.
  intros Hstep.
  destruct (assignChannel_cases gc c)
    as (gc1 & radio & r & _ & Hfit & Em & Es & Ef & Hrad & Hconf).
  destruct (firstFit_lookup _ _ _ _ Hfit) as [_ [ext Hext]].
  rewrite Hstep in Hconf.
  assert (Hkeep : forall radio0 r0,
             Radios gc !! radio0 = Some r0 -> Radios gc1 !! radio0 = Some r0).
  { intros radio0 r0 H0. rewrite Hext. by apply lookup_app_l_Some. }
  inversion Hconf as [Hk He| |sf Hk1 Hk2 Hsf He| |Hk1 Hk2 Hk3|]; subst; clear Hconf.
  - split.
    + exists radio, r. split; [done|]. left. done.
    + intros c0 (radio0 & r0 & H0 & Hslot). exists radio0, r0.
      split; [by eapply Hkeep|].
      destruct Hslot as [[? Hs]|[(?&?&sf&?&Hs)|(?&?&?&Hs)]]; simpl.
      * rewrite Ef, Hs in He. done.
      * right; left. split_and!; try done. exists sf. by rewrite Es.
      * right; right. split_and!; try done. by rewrite Em.
  - split.
    + exists radio, r. split; [done|]. right; left. split_and!; try done. by exists sf.
    + intros c0 (radio0 & r0 & H0 & Hslot). exists radio0, r0.
      split; [by eapply Hkeep|].
      destruct Hslot as [[? Hs]|[(?&?&sf0&?&Hs)|(?&?&?&Hs)]]; simpl.
      * left. split; [done|]. by rewrite Ef.
      * rewrite Es, Hs in He. done.
      * right; right. split_and!; try done. by rewrite Em.
  - split.
    + exists radio, r. split; [done|]. right; right. split_and!; try done.
      simpl. apply elem_of_app. right. by apply list_elem_of_singleton.
    + intros c0 (radio0 & r0 & H0 & Hslot). exists radio0, r0.
      split; [by eapply Hkeep|].
      destruct Hslot as [[? Hs]|[(?&?&sf0&?&Hs)|(?&?&?&Hs)]]; simpl.
      * left. split; [done|]. by rewrite Ef.
      * right; left. split_and!; try done. exists sf0. by rewrite Es.
      * right; right. split_and!; try done.
        apply elem_of_app. left. by rewrite Em.
Qed.

Lemma assignChannels_assigned gc channels gc' :
  assignChannels gc channels = (gc', Ok) ->
  (forall c, c ∈ channels -> assigned gc' c)
  /\ forall c0, assigned gc c0 -> assigned gc' c0.
Proof.
  revert gc; induction channels as [|c l IH]; intros gc H; simpl in H.
  { simplify_eq. split; [|done]. intros c Hc. by apply elem_of_nil in Hc. }
  destruct (assignChannel gc c) as [gc1 [| |]] eqn:Hstep; try done.
  destruct (assignChannel_assigned _ _ _ Hstep) as [Hc Hkeep1].
  destruct (IH _ H) as [Hl Hkeep].
  split; [|by auto].
  intros c1 [->|Hin]%elem_of_cons; auto.
Qed.

(** *** The order of the channels *)

Lemma Less_StrictWeakOrder : StrictWeakOrder Less.
Proof.
  split; unfold Less.
  - intros x y H%Z.ltb_lt. apply Z.ltb_ge. lia.
  - intros x y z H1%Z.ltb_ge H2%Z.ltb_ge. apply Z.ltb_ge. lia.
Qed.

(** Ascending by the minimum radio center frequency. *)
Definition byMinRadioCenterFreq (channels : list Channel) : Prop :=
  StronglySorted (fun ci cj => minRadioCenterFreq ci <= minRadioCenterFreq cj) channels.

Lemma ascending_byMinRadioCenterFreq channels :
  ascending Less channels <-> byMinRadioCenterFreq channels.
Proof.
  unfold ascending, byMinRadioCenterFreq, Less.
  split; induction 1 as [|x l Hl IH Hx]; constructor; try done;
    (eapply Forall_impl; [exact Hx|]); intros y; simpl; rewrite Z.ltb_ge; done.
Qed.

Lemma sortedChannels_perm S conf : sortedChannels S conf ≡ₚ Channels conf.
Proof. apply sort_Sort_perm. Qed.

Lemma sortedChannels_sorted S conf : byMinRadioCenterFreq (sortedChannels S conf).
Proof.
  apply ascending_byMinRadioCenterFreq, sort_Sort_ascending, Less_StrictWeakOrder.
Qed.

(** A plan which is in order already, with no two channels of the same
    minimum radio center frequency, is left as it is by every [sort.Sort]. *)
Lemma sortedChannels_fixed S conf :
  byMinRadioCenterFreq (Channels conf) ->
  (forall ci cj, ci ∈ Channels conf -> cj ∈ Channels conf ->
     minRadioCenterFreq ci = minRadioCenterFreq cj -> ci = cj) ->
  sortedChannels S conf = Channels conf.
Proof.
  intros Hsorted Hinj.
  eapply StronglySorted_unique_strong;
    [|apply sortedChannels_sorted|exact Hsorted|apply sortedChannels_perm].
  simpl. intros ci cj Hi Hj H1 H2.
  apply Hinj; [|done|lia].
  by rewrite <- (sortedChannels_perm S conf).
Qed.

Lemma sortedChannels_singleton S c :
  sortedChannels S (mkGatewayConfigPacket [c]) = [c].
Proof. apply Permutation_singleton_r, sortedChannels_perm. Qed.

(** ** Properties of the merge *)

(** The value at a key of [SX1301_conf] and of [gateway_conf], when the map
    is there and has the key. *)
Definition sxLookup (config : configFile) (key : string) : option value :=
  SX1301Conf config ≫= fun m => m !! key.
Definition gatewayLookup (config : configFile) (key : string) : option value :=
  GatewayConf config ≫= fun m => m !! key.

(** The value at a key is as before, or it was a map and is a map which
    differs from it in the listed fields at most. *)
Definition sameExcept (fields : list string) (v v' : option value) : Prop :=
  v' = v
  \/ exists node node',
       v = Some (VMap node) /\ v' = Some (VMap node')
       /\ forall f, f ∉ fields -> node' !! f = node !! f.

(** The document [config'] differs from [config] at most in the fields
    [written key] of the maps at the keys of [SX1301_conf] and in the keys
    [gatewayKeys] of [gateway_conf]. *)
Record framed (written : string -> list string) (gatewayKeys : list string)
    (config config' : configFile) : Prop := {
  framed_sx_nil : SX1301Conf config' = None <-> SX1301Conf config = None;
  framed_sx : forall key,
      sameExcept (written key) (sxLookup config key) (sxLookup config' key);
  framed_gateway_nil : GatewayConf config' = None <-> GatewayConf config = None;
  framed_gateway : forall key,
      key ∉ gatewayKeys -> gatewayLookup config' key = gatewayLookup config key
}.

Section Frame.
Context (written : string -> list string) (gatewayKeys : list string).

Lemma sameExcept_refl fields v : sameExcept fields v v.
Proof. by left. Qed.

Lemma sameExcept_trans fields v1 v2 v3 :
  sameExcept fields v1 v2 -> sameExcept fields v2 v3 -> sameExcept fields v1 v3.
Proof.
  intros [->|(n1 & n2 & -> & -> & H12)] [->|(n2' & n3 & E & -> & H23)].
  - by left.
  - right. eauto.
  - right. eauto.
  - simplify_eq. right. exists n1, n3. split_and!; try done.
    intros f Hf. by rewrite H23, H12.
Qed.

Lemma sameExcept_mono fields fields' v v' :
  fields ⊆ fields' -> sameExcept fields v v' -> sameExcept fields' v v'.
Proof.
  intros Hsub [->|(n & n' & -> & -> & H)]; [by left|].
  right. exists n, n'. split_and!; try done.
  intros f Hf. apply H. intros Hin. by apply Hf, Hsub.
Qed.

Lemma framed_refl config : framed written gatewayKeys config config.
Proof. split; try done. intros key. apply sameExcept_refl. Qed.

Lemma framed_trans c1 c2 c3 :
  framed written gatewayKeys c1 c2 -> framed written gatewayKeys c2 c3 ->
  framed written gatewayKeys c1 c3.
Proof.
  intros [A1 B1 C1 D1] [A2 B2 C2 D2]. split.
  - by rewrite A2.
  - intros key. by eapply sameExcept_trans.
  - by rewrite C2.
  - intros key Hkey. by rewrite D2, D1.
Qed.

Lemma framed_andThen {E : Type} config (r : configFile * outcome E)
    (k : configFile -> configFile * outcome E) :
  framed written gatewayKeys config r.1 ->
  (forall c, framed written gatewayKeys c (k c).1) ->
  framed written gatewayKeys config (r ;> k).1.
Proof.
  intros Hr Hk. destruct r as [c [| |]]; simpl in *; try done.
  eapply framed_trans; [exact Hr|apply Hk].
Qed.

Lemma assignAll_other node kvs f :
  f ∉ kvs.*1 -> assignAll node kvs !! f = node !! f.
Proof.
  unfold assignAll. revert node; induction kvs as [|[k v] kvs IH]; intros node Hf;
    simpl in *; [done|].
  apply not_elem_of_cons in Hf as [Hne Hf].
  rewrite IH by done. by rewrite lookup_insert_ne.
Qed.

Lemma updateNode_framed key kvs config :
  kvs.*1 ⊆ written key ->
  framed written gatewayKeys config (updateNode key kvs config).1.
Proof.
  intros Hsub. unfold updateNode.
  destruct (index (SX1301Conf config) key) as [| | | | | |node] eqn:Hidx;
    try apply framed_refl.
  destruct config as [[sx|] gw]; simpl in *; [|done].
  destruct (sx !! key) as [v|] eqn:Hkey; simplify_eq/=.
  split; simpl; try done.
  intros k. unfold sxLookup; simpl.
  destruct (decide (k = key)) as [->|Hne].
  - rewrite lookup_insert_eq, Hkey. right. eexists _, _. split_and!; try done.
    intros f Hf. apply assignAll_other. intros Hin. by apply Hf, Hsub.
  - rewrite lookup_insert_ne by done. by left.
Qed.

Lemma updateGatewayID_framed mac config :
  "gateway_ID" ∈ gatewayKeys ->
  framed written gatewayKeys config (updateGatewayID mac config).1.
Proof.
  intros Hin. unfold updateGatewayID.
  destruct config as [sx [gw|]]; simpl; [|apply framed_refl].
  split; simpl; try done.
  - intros key. apply sameExcept_refl.
  - intros key Hkey. unfold gatewayLookup; simpl.
    rewrite lookup_insert_ne; [done|]. by intros <-.
Qed.

Lemma updateRadios_framed i radios config :
  (forall j, (i <= j < i + length radios)%nat ->
     ["enable"; "freq"] ⊆ written (radioKey j)) ->
  framed written gatewayKeys config (updateRadios i radios config).1.
Proof.
  revert i config; induction radios as [|r rs IH]; intros i config Hw; simpl.
  { apply framed_refl. }
  apply framed_andThen.
  - apply updateNode_framed. apply Hw. simpl. lia.
  - intros c. apply IH. intros j Hj. apply Hw. simpl. lia.
Qed.

Lemma updateMultiSFChannels_framed i channels config :
  (forall j, (i <= j < i + length channels)%nat ->
     ["enable"; "radio"; "if"] ⊆ written (multiSFKey j)) ->
  framed written gatewayKeys config (updateMultiSFChannels i channels config).1.
Proof.
  revert i config; induction channels as [|c cs IH]; intros i config Hw; simpl.
  { apply framed_refl. }
  apply framed_andThen.
  - apply updateNode_framed. apply Hw. simpl. lia.
  - intros c'. apply IH. intros j Hj. apply Hw. simpl. lia.
Qed.

End Frame.

(** The fields which [mergeConfig] assigns in the map at a key of
    [SX1301_conf], for the configuration [newConfig]. *)
Definition writtenFields (newConfig : gatewayConfiguration) (key : string)
    : list string :=
  (if decide (key ∈ radioKey <$> seq 0 (length (Radios newConfig)))
   then ["enable"; "freq"] else [])
  ++ (if decide (key ∈ multiSFKey <$> seq 0 (length (MultiSFChannels newConfig)))
      then ["enable"; "radio"; "if"] else [])
  ++ (if decide (key = "chan_Lora_std")
      then ["enable"; "radio"; "if"; "bandwidth"; "spread_factor"] else [])
  ++ (if decide (key = "chan_FSK")
      then ["enable"; "radio"; "if"; "bandwidth"; "datarate"] else []).

Lemma mergeConfig_framed mac config newConfig :
  framed (writtenFields newConfig) ["gateway_ID"] config
    (mergeConfig mac config newConfig).1.
Proof.
  unfold mergeConfig.
  repeat apply framed_andThen.
  - apply updateRadios_framed. intros j Hj. unfold writtenFields.
    rewrite decide_True.
    + intros f Hf. rewrite ?elem_of_app, ?app_nil_r. tauto.
    + apply list_elem_of_fmap. exists j. split; [done|]. apply elem_of_seq. lia.
  - intros c. apply updateMultiSFChannels_framed. intros j Hj. unfold writtenFields.
    rewrite (decide_True (P := multiSFKey j ∈ multiSFKey <$> _)).
    + intros f Hf. rewrite ?elem_of_app, ?app_nil_r. tauto.
    + apply list_elem_of_fmap. exists j. split; [done|]. apply elem_of_seq. lia.
  - intros c. apply updateNode_framed. unfold writtenFields.
    rewrite (decide_True (P := _ = "chan_Lora_std")) by done.
    intros f Hf. rewrite ?elem_of_app, ?app_nil_r. tauto.
  - intros c. apply updateNode_framed. unfold writtenFields.
    rewrite (decide_True (P := _ = "chan_FSK")) by done.
    intros f Hf. rewrite ?elem_of_app, ?app_nil_r. tauto.
  - intros c. apply updateGatewayID_framed. by apply list_elem_of_singleton.
Qed.

(** *** The steps of the merge and its error *)

(** The keys of [SX1301_conf] which [mergeConfig] goes through, in order,
    each with the assignments to the map at the key. *)
Fixpoint radioSteps (i : nat) (radios : list radioConfig.t)
    : list (string * list (string * value)) :=
  match radios with
  | [] => []
  | r :: radios' => (radioKey i, radioValues r) :: radioSteps (S i) radios'
  end.

Fixpoint multiSFSteps (i : nat) (channels : list multiSFChannelConfig.t)
    : list (string * list (string * value)) :=
  match channels with
  | [] => []
  | c :: channels' => (multiSFKey i, multiSFValues c) :: multiSFSteps (S i) channels'
  end.

Definition mergeSteps (newConfig : gatewayConfiguration)
    : list (string * list (string * value)) :=
  radioSteps 0 (Radios newConfig)
  ++ multiSFSteps 0 (MultiSFChannels newConfig)
  ++ [("chan_Lora_std", loRaSTDValues (LoRaSTDChannelConfig newConfig));
      ("chan_FSK", fskValues (FSKChannelConfig newConfig))].

Fixpoint runSteps (steps : list (string * list (string * value)))
    (config : configFile) : configFile * outcome mergeError :=
  match steps with
  | [] => (config, Ok)
  | step :: steps' => updateNode step.1 step.2 config ;> runSteps steps'
  end.

Lemma andThen_assoc {St E : Type} (r : St * outcome E) (k1 k2 : St -> St * outcome E) :
  r ;> k1 ;> k2 = r ;> (fun s => k1 s ;> k2).
Proof. by destruct r as [s [| |]]. Qed.

Lemma runSteps_app steps1 steps2 config :
  runSteps (steps1 ++ steps2) config = runSteps steps1 config ;> runSteps steps2.
Proof.
  revert config; induction steps1 as [|step l IH]; intros config; simpl; [done|].
  rewrite andThen_assoc.
  destruct (updateNode step.1 step.2 config) as [c [| |]]; simpl; [apply IH|done..].
Qed.

Lemma updateRadios_runSteps i radios config :
  updateRadios i radios config = runSteps (radioSteps i radios) config.
Proof.
  revert i config; induction radios as [|r rs IH]; intros i config; simpl; [done|].
  destruct (updateNode _ _ config) as [c [| |]]; simpl; [apply IH|done..].
Qed.

Lemma updateMultiSFChannels_runSteps i channels config :
  updateMultiSFChannels i channels config = runSteps (multiSFSteps i channels) config.
Proof.
  revert i config; induction channels as [|r rs IH]; intros i config; simpl; [done|].
  destruct (updateNode _ _ config) as [c [| |]]; simpl; [apply IH|done..].
Qed.

Lemma mergeConfig_runSteps mac config newConfig :
  mergeConfig mac config newConfig
  = runSteps (mergeSteps newConfig) config ;> updateGatewayID mac.
Proof.
  unfold mergeConfig, mergeSteps.
  rewrite runSteps_app, updateRadios_runSteps.
  destruct (runSteps (radioSteps 0 (Radios newConfig)) config) as [c1 [| |]];
    simpl; try done.
  rewrite runSteps_app, updateMultiSFChannels_runSteps.
  destruct (runSteps (multiSFSteps 0 (MultiSFChannels newConfig)) c1) as [c2 [| |]];
    simpl; try done.
  destruct (updateNode "chan_Lora_std" _ c2) as [c3 [| |]]; simpl; try done.
  by destruct (updateNode "chan_FSK" _ c3) as [c4 [| |]].
Qed.

(** The value at the key is a map. *)
Definition isMap (v : value) : Prop := exists node, v = VMap node.

Lemma updateNode_index key kvs config key' :
  let v := index (SX1301Conf config) key' in
  let v' := index (SX1301Conf (updateNode key kvs config).1) key' in
  (isMap v <-> isMap v') /\ (~ isMap v -> v' = v).
Proof.
  intros v v'.
  pose proof (updateNode_framed (fun k => kvs.*1) [] key kvs config
                (reflexivity _)) as [_ Hsx _ _].
  specialize (Hsx key'). unfold sxLookup in Hsx.
  assert (Hv : v = default VNil (SX1301Conf config ≫= fun m => m !! key')).
  { unfold v, index. by destruct (SX1301Conf config). }
  assert (Hv' : v' = default VNil
                       (SX1301Conf (updateNode key kvs config).1 ≫= fun m => m !! key')).
  { unfold v', index. by destruct (SX1301Conf (updateNode key kvs config).1). }
  destruct Hsx as [H|(node & node' & H1 & H2 & _)].
  - rewrite Hv, Hv', H. tauto.
  - rewrite H1 in Hv. rewrite H2 in Hv'. simpl in Hv, Hv'. rewrite Hv, Hv'.
    split; [|intros []; by eexists]. split; intros _; by eexists.
Qed.

Lemma runSteps_index steps config key' :
  let v := index (SX1301Conf config) key' in
  let v' := index (SX1301Conf (runSteps steps config).1) key' in
  (isMap v <-> isMap v') /\ (~ isMap v -> v' = v).
Proof.
  revert config; induction steps as [|step l IH]; intros config; simpl; [tauto|].
  pose proof (updateNode_index step.1 step.2 config key') as [H1 H2].
  destruct (updateNode step.1 step.2 config) as [c [| |]]; simpl in *; try tauto.
  destruct (IH c) as [H3 H4]. split; [tauto|].
  intros Hv. rewrite H4, H2; tauto.
Qed.

Lemma updateNode_Ok key kvs config config' :
  updateNode key kvs config = (config', Ok) -> isMap (index (SX1301Conf config) key).
Proof.
  unfold updateNode. destruct (index _ _) eqn:H; intros ?; simplify_eq. by eexists.
Qed.

Lemma runSteps_no_panic steps config : (runSteps steps config).2 <> Panic.
Proof.
  revert config; induction steps as [|step l IH]; intros config; simpl; [done|].
  unfold updateNode at 1.
  destruct (index _ _); simpl; try done; apply IH.
Qed.

(** When the steps end with an error, the error names the first key whose
    value in the document is not a map, with the type of that value, and
    the document holds what the steps before it have written. *)
Lemma runSteps_error steps config config' e :
  runSteps steps config = (config', Err e) ->
  exists pre key kvs post,
    steps = pre ++ (key, kvs) :: post
    /\ Forall (fun step => isMap (index (SX1301Conf config) step.1)) pre
    /\ ~ isMap (index (SX1301Conf config) key)
    /\ e = ErrExpectedMap key (typeName (index (SX1301Conf config) key))
    /\ runSteps pre config = (config', Ok).
Proof.
  revert config; induction steps as [|[key kvs] l IH]; intros config H;
    simpl in H; [done|].
  destruct (updateNode key kvs config) as [c [|e'|]] eqn:Hstep; simpl in H.
  - destruct (IH _ H) as (pre & key' & kvs' & post & -> & Hpre & Hbad & -> & Hrun).
    assert (c = (updateNode key kvs config).1) as Hc by (by rewrite Hstep).
    pose proof (updateNode_index key kvs config key') as [Hiff Hsame].
    rewrite <- Hc in Hiff, Hsame.
    exists ((key, kvs) :: pre), key', kvs', post. split_and!.
    + done.
    + constructor; [by eapply updateNode_Ok|].
      eapply Forall_impl; [exact Hpre|]. intros step Hs. simpl in *.
      pose proof (updateNode_index key kvs config step.1) as [Hiff' _].
      rewrite <- Hc in Hiff'. tauto.
    + tauto.
    + rewrite Hsame by tauto. done.
    + simpl. by rewrite Hstep.
  - simplify_eq. exists [], key, kvs, l.
    unfold updateNode in Hstep.
    destruct (index (SX1301Conf config) key) eqn:Hidx; simplify_eq;
      (split_and!; [done|constructor|by intros [? ?]|done|done]).
  - done.
Qed.

Lemma updateGatewayID_not_Err mac config e : (updateGatewayID mac config).2 <> Err e.
Proof. unfold updateGatewayID. by destruct (GatewayConf config). Qed.

Lemma runSteps_GatewayConf steps config :
  GatewayConf (runSteps steps config).1 = GatewayConf config.
Proof.
  revert config; induction steps as [|step l IH]; intros config; simpl; [done|].
  unfold updateNode at 1.
  destruct (index _ _); simpl; try done. by rewrite IH.
Qed.

(** The merge panics whenever [gateway_conf] is missing and the maps of
    [SX1301_conf] are there. *)
Lemma mergeConfig_nil_gateway_conf mac config newConfig :
  GatewayConf config = None ->
  Forall (fun step => isMap (index (SX1301Conf config) step.1)) (mergeSteps newConfig) ->
  (mergeConfig mac config newConfig).2 = Panic.
Proof.
  intros Hnil Hmaps. rewrite mergeConfig_runSteps.
  pose proof (runSteps_GatewayConf (mergeSteps newConfig) config) as Hgw.
  destruct (runSteps (mergeSteps newConfig) config) as [c [|e|]] eqn:Hrun; simpl in *.
  - unfold updateGatewayID. by rewrite Hgw, Hnil.
  - apply runSteps_error in Hrun
      as (pre & key & kvs & post & Hsplit & _ & Hbad & _).
    rewrite Hsplit in Hmaps. apply Forall_app in Hmaps as [_ Hmaps].
    apply Forall_cons in Hmaps as [Hkey _]. done.
  - done.
Qed.

(** ** Examples *)

(** The plan of the end-to-end example: three LoRa channels of 125 kHz and
    one FSK channel of 250 kHz. *)
Definition examplePlan : list Channel :=
  [ mkChannel band.LoRaModulation 868100000 125 0 [7; 8; 9; 10; 11; 12];
    mkChannel band.LoRaModulation 868300000 125 0 [7];
    mkChannel band.LoRaModulation 868500000 125 0 [7; 8; 9; 10; 11; 12];
    mkChannel band.FSKModulation 868800000 250 50000 [] ].

(** Seven multi-SF channels; the first two have the same frequency and
    bandwidth, so the same minimum radio center frequency, and differ in
    their spreading factors; the last one is the lowest. *)
Definition tiedPlan : list Channel :=
  [ mkChannel band.LoRaModulation 868300000 125 0 [7; 8];
    mkChannel band.LoRaModulation 868300000 125 0 [9; 10];
    mkChannel band.LoRaModulation 868500000 125 0 [7; 8];
    mkChannel band.LoRaModulation 868700000 125 0 [7; 8];
    mkChannel band.LoRaModulation 868900000 125 0 [7; 8];
    mkChannel band.LoRaModulation 869100000 125 0 [7; 8];
    mkChannel band.LoRaModulation 868100000 125 0 [7; 8] ].


(** One LoRa channel without a spreading factor. *)
Definition noSFPlan : list Channel :=
  [ mkChannel band.LoRaModulation 868100000 125 0 [] ].

(** The configuration which [getGatewayConfig] returns for [examplePlan]. *)
Definition exampleConfiguration : gatewayConfiguration :=
  mkGatewayConfiguration
    [radioConfig.mk true 868500000]
    [multiSFChannelConfig.mk true 0 (-400000) 868100000;
     multiSFChannelConfig.mk true 0 0 868500000]
    (loRaSTDChannelConfig.mk true 0 (-200000) 125000 7 868300000)
    (fskChannelConfig.mk true 0 300000 250 50000 868800000).

(** The sort keeps the channels of every key in the order of the input. *)
Definition stable (channels sorted : list Channel) : Prop :=
  forall key,
    List.filter (fun c => minRadioCenterFreq c =? key) sorted
    = List.filter (fun c => minRadioCenterFreq c =? key) channels.

(** Example documents: an [SX1301_conf] with a radio, two multi-SF
    channels and the two single channels, each with fields which are not
    part of the channel plan, and a [gateway_conf]. *)
Definition exampleSX1301Conf : gmap string value :=
  {[ "lorawan_public" := VBool true;
     "radio_0" := VMap {[ "enable" := VBool false; "type" := VString "SX1257";
                          "freq" := VFloat64 4740560325806391296;
                          "rssi_offset" := VFloat64 13913987596993691648 ]};
     "chan_multiSF_0" := VMap {[ "enable" := VBool false; "radio" := VFloat64 0;
                                 "if" := VFloat64 0; "desc" := VString "ch0" ]};
     "chan_multiSF_1" := VMap {[ "enable" := VBool false; "radio" := VFloat64 0;
                                 "if" := VFloat64 0 ]};
     "chan_Lora_std" := VMap {[ "enable" := VBool false ]};
     "chan_FSK" := VMap {[ "enable" := VBool false ]} ]}.

Definition exampleGatewayConf : gmap string value :=
  {[ "gateway_ID" := VString "AA555A0000000000";
     "server_address" := VString "localhost" ]}.

Definition exampleMAC : EUI64 :=
  [# "001"%byte; "002"%byte; "003"%byte; "004"%byte;
     "005"%byte; "006"%byte; "007"%byte; "008"%byte ].

(** The document of a JSON file without the [gateway_conf] member. *)
Definition documentWithoutGatewayConf : configFile :=
  mkConfigFile (Some exampleSX1301Conf) None.

(** The document of a JSON file whose [SX1301_conf] lacks [chan_multiSF_1]. *)
Definition documentWithoutChannel1 : configFile :=
  mkConfigFile (Some (delete "chan_multiSF_1" exampleSX1301Conf))
    (Some exampleGatewayConf).

(** The maps at [radio_0] and [chan_multiSF_0] after the merge of
    [exampleConfiguration]. *)
Definition mergedRadio0 : value :=
  VMap {[ "enable" := VBool true; "type" := VString "SX1257";
          "freq" := VInt 868500000;
          "rssi_offset" := VFloat64 13913987596993691648 ]}.
Definition mergedMultiSF0 : value :=
  VMap {[ "enable" := VBool true; "radio" := VInt 0; "if" := VInt (-400000);
          "desc" := VString "ch0" ]}.

(** ** The radio window lookup *)


(** ** The channel ordering *)

(** The sort is not stable for every implementation of [sort.Sort]: on
    [tiedPlan] the short-slice path of Go 1.6 to 1.18 first exchanges the
    channels at indices 6 and 0, which carries the first channel over the
    second one, of the same key; the insertion sort then moves it back only
    as far as the second one. *)
Lemma sortedChannels_not_stable :
  ~ (forall (S : Sorter) (conf : GatewayConfigPacket),
       stable (Channels conf) (sortedChannels S conf)).
Proof.
  intros H.
  specialize (H GoSort.short (mkGatewayConfigPacket tiedPlan) 868700000).
  vm_compute in H. discriminate H.
Qed.

(** C4 (amended): [getGatewayConfig] runs its loop over the channels
    sorted by [sort.Sort]: a permutation of the plan which is ascending by
    the minimum radio center frequency
    [Frequency - channelBandwidth/2 + radioBandwidth/2] of each channel.
    Nothing is promised about the order of the channels of equal keys. *)
Theorem sortedChannels_ascending (S : Sorter) (conf : GatewayConfigPacket) :
  getGatewayConfig S conf
    = assignChannels zeroGatewayConfiguration (sortedChannels S conf)
  /\ sortedChannels S conf ≡ₚ Channels conf
  /\ StronglySorted (fun ci cj => minRadioCenterFreq ci <= minRadioCenterFreq cj)
       (sortedChannels S conf)
  /\ (forall c,
        minRadioCenterFreq c =
          Frequency c -i ((Bandwidth c *i 1000) /i 2)
          +i (radioBandwidth (Bandwidth c *i 1000) /i 2)).
Proof.
  split_and!; [done|apply sortedChannels_perm|apply sortedChannels_sorted|done].
Qed.

(** ** The end-to-end example *)

Lemma examplePlan_fixed S :
  sortedChannels S (mkGatewayConfigPacket examplePlan) = examplePlan.
Proof.
  apply sortedChannels_fixed; simpl.
  - unfold byMinRadioCenterFreq, examplePlan.
    repeat constructor; by vm_compute.
  - intros ci cj Hi Hj.
    unfold examplePlan in Hi, Hj.
    repeat (apply elem_of_cons in Hi as [->|Hi]);
      try (by apply elem_of_nil in Hi);
      repeat (apply elem_of_cons in Hj as [->|Hj]);
      try (by apply elem_of_nil in Hj);
      vm_compute; intros H; try reflexivity; discriminate H.
Qed.

(** C2: on the example plan the assignment succeeds with exactly one radio
    (center 868500000), two multi-SF slots, the enabled single-SF slot and
    the enabled FSK slot, all on radio 0, and the intermediate frequency of
    each slot is the frequency of its channel minus the center of the
    radio. *)
Theorem getGatewayConfig_example (S : Sorter) :
  exists center,
    center = 868100000 - 125000 / 2 + 925000 / 2
    /\ getGatewayConfig S (mkGatewayConfigPacket examplePlan) =
         (mkGatewayConfiguration
            [radioConfig.mk true center]
            [multiSFChannelConfig.mk true 0 (868100000 - center) 868100000;
             multiSFChannelConfig.mk true 0 (868500000 - center) 868500000]
            (loRaSTDChannelConfig.mk true 0 (868300000 - center) 125000 7 868300000)
            (fskChannelConfig.mk true 0 (868800000 - center) 250 50000 868800000),
          Ok).
Proof.
  eexists. split; [reflexivity|].
  unfold getGatewayConfig. rewrite examplePlan_fixed. by vm_compute.
Qed.

(** ** The assignment *)

Lemma getGatewayConfig_end S conf :
  (getGatewayConfig S conf).2 = loopEnd false false (sortedChannels S conf).
Proof. unfold getGatewayConfig. by rewrite assignChannels_loopEnd. Qed.

(** X12: [getGatewayConfig] never panics: the index of [gc.Radios[radio]]
    is always in range, and [c.SpreadingFactors[0]] is only read of a
    channel with one spreading factor. *)
Lemma getGatewayConfig_no_panic S conf : (getGatewayConfig S conf).2 <> Panic.
Proof. apply assignChannels_no_panic. Qed.

Lemma assignChannel_slot gc c gc' res :
  assignChannel gc c = (gc', res) ->
  exists radio r,
    firstFit (Radios gc) (Radios gc') radio c
    /\ Radios gc' !! radio = Some r
    /\ (res = Ok -> slotOf gc' c radio (Frequency c -i radioConfig.Freq r)).
Proof.
  intros Hstep.
  destruct (assignChannel_cases gc c)
    as (gc1 & radio & r & _ & Hfit & Em & Es & Ef & Hrad & Hconf).
  rewrite Hstep in Hconf. exists radio, r.
  inversion Hconf as [Hk He| |sf Hk1 Hk2 Hsf He| |Hk1 Hk2 Hk3|]; subst; simpl;
    split_and!; try done; intros _.
  - by left.
  - right; left. split_and!; try done. by exists sf.
  - right; right. split_and!; try done.
    apply elem_of_app. right. by apply list_elem_of_singleton.
Qed.

(** C1: when the loop gets to channel [c] of the sorted plan with the
    configuration [gc], the radio of [c] is the first radio of [gc], in the
    order of creation, whose window
    [center - radioBandwidth/2, center + radioBandwidth/2] contains
    [channelMin, channelMax]; when there is none, a new enabled radio of
    center [channelMin + radioBandwidth/2] is appended and is the radio of
    [c] (this is [firstFit]).  Unless the channel ends the loop with an
    error, its slot carries this radio. *)
Theorem getGatewayConfig_first_fit (S : Sorter) (conf : GatewayConfigPacket)
    (pre post : list Channel) (c : Channel) (gc : gatewayConfiguration) :
  sortedChannels S conf = pre ++ c :: post ->
  assignChannels zeroGatewayConfiguration pre = (gc, Ok) ->
  exists gc' res radio r,
    assignChannel gc c = (gc', res)
    /\ getGatewayConfig S conf
         = match res with Ok => assignChannels gc' post | _ => (gc', res) end
    /\ firstFit (Radios gc) (Radios gc') radio c
    /\ Radios gc' !! radio = Some r
    /\ (res = Ok -> slotOf gc' c radio (Frequency c -i radioConfig.Freq r)).
Proof.
  intros Hsplit Hpre.
  destruct (assignChannel gc c) as [gc' res] eqn:Hstep.
  destruct (assignChannel_slot _ _ _ _ Hstep) as (radio & r & Hfit & Hr & Hslot).
  exists gc', res, radio, r. split_and!; try done.
  unfold getGatewayConfig. rewrite Hsplit, assignChannels_app, Hpre. simpl.
  rewrite Hstep. by destruct res.
Qed.

Lemma getGatewayConfig_first_fit_witness :
  exists gc' res radio r,
    assignChannel
      (mkGatewayConfiguration [radioConfig.mk true 868500000]
         [multiSFChannelConfig.mk true 0 (-400000) 868100000]
         loRaSTDChannelConfig.zero fskChannelConfig.zero)
      (mkChannel band.LoRaModulation 868300000 125 0 [7]) = (gc', res)
    /\ getGatewayConfig GoSort.insertion (mkGatewayConfigPacket examplePlan)
         = match res with
           | Ok =>
               assignChannels gc'
                 [mkChannel band.LoRaModulation 868500000 125 0 [7; 8; 9; 10; 11; 12];
                  mkChannel band.FSKModulation 868800000 250 50000 []]
           | _ => (gc', res)
           end
    /\ firstFit [radioConfig.mk true 868500000] (Radios gc') radio
         (mkChannel band.LoRaModulation 868300000 125 0 [7])
    /\ Radios gc' !! radio = Some r
    /\ (res = Ok ->
        slotOf gc' (mkChannel band.LoRaModulation 868300000 125 0 [7]) radio
          (868300000 -i radioConfig.Freq r)).
Proof.
  apply (getGatewayConfig_first_fit GoSort.insertion
           (mkGatewayConfigPacket examplePlan)
           [mkChannel band.LoRaModulation 868100000 125 0 [7; 8; 9; 10; 11; 12]]).
  - vm_compute. reflexivity.
  - vm_compute. reflexivity.
Defined.

(** C7: when the assignment succeeds, every channel of the plan has its
    slot (multi-SF, single-SF or FSK) on a radio of the result, and the
    intermediate frequency in the slot is [F - C], the frequency [F] of the
    channel minus the center [C] of that radio, by the subtraction of Go's
    [int]: the very difference of the two integers, negative when [F < C],
    whenever that fits an [int].  Every slot of the result holds the
    difference from its frequency to the center of its radio. *)
Theorem getGatewayConfig_IF (S : Sorter) (conf : GatewayConfigPacket)
    (gc : gatewayConfiguration) :
  getGatewayConfig S conf = (gc, Ok) ->
  (forall c, c ∈ Channels conf ->
     exists radio r,
       Radios gc !! radio = Some r
       /\ slotOf gc c radio (Frequency c -i radioConfig.Freq r)
       /\ (GoInt.inRange (Frequency c - radioConfig.Freq r) ->
           Frequency c -i radioConfig.Freq r = Frequency c - radioConfig.Freq r))
  /\ Forall (fun m =>
               exists r, Radios gc !! multiSFChannelConfig.Radio m = Some r
                 /\ multiSFChannelConfig.IF_ m
                    = multiSFChannelConfig.Freq m -i radioConfig.Freq r)
       (MultiSFChannels gc)
  /\ (loRaSTDChannelConfig.Enable (LoRaSTDChannelConfig gc) = true ->
      exists r,
        Radios gc !! loRaSTDChannelConfig.Radio (LoRaSTDChannelConfig gc) = Some r
        /\ loRaSTDChannelConfig.IF_ (LoRaSTDChannelConfig gc)
           = loRaSTDChannelConfig.Freq (LoRaSTDChannelConfig gc) -i radioConfig.Freq r)
  /\ (fskChannelConfig.Enable (FSKChannelConfig gc) = true ->
      exists r,
        Radios gc !! fskChannelConfig.Radio (FSKChannelConfig gc) = Some r
        /\ fskChannelConfig.IF_ (FSKChannelConfig gc)
           = fskChannelConfig.Freq (FSKChannelConfig gc) -i radioConfig.Freq r).
Proof.
  intros Hrun. unfold getGatewayConfig in Hrun.
  pose proof (assignChannels_wellFormed _ (sortedChannels S conf) wellFormed_zero)
    as [_ Hm Hs Hf].
  rewrite Hrun in Hm, Hs, Hf. simpl in *.
  split_and!; try done.
  - intros c Hc.
    destruct (assignChannels_assigned _ _ _ Hrun) as [Hall _].
    destruct (Hall c) as (radio & r & Hr & Hslot).
    { by rewrite sortedChannels_perm. }
    exists radio, r. split_and!; try done. apply GoInt.sub_exact.
  - eapply Forall_impl; [exact Hm|]. by intros m [_ ?].
Qed.

Lemma getGatewayConfig_IF_witness :
  exists radio r,
    Radios exampleConfiguration !! radio = Some r
    /\ slotOf exampleConfiguration
         (mkChannel band.LoRaModulation 868100000 125 0 [7; 8; 9; 10; 11; 12])
         radio (868100000 -i radioConfig.Freq r)
    /\ (GoInt.inRange (868100000 - radioConfig.Freq r) ->
        868100000 -i radioConfig.Freq r = 868100000 - radioConfig.Freq r).
Proof.
  refine (proj1 (getGatewayConfig_IF GoSort.insertion
                   (mkGatewayConfigPacket examplePlan) exampleConfiguration _)
            (mkChannel band.LoRaModulation 868100000 125 0 [7; 8; 9; 10; 11; 12]) _).
  - vm_compute. reflexivity.
  - simpl. apply elem_of_cons. by left.
Defined.

(** C10: when the assignment succeeds, the radio index of every multi-SF
    slot, of the single-SF slot if it is enabled and of the FSK slot if it
    is enabled is an index into the radios of the result, and every radio
    of the result is enabled. *)
Theorem getGatewayConfig_radio_index (S : Sorter) (conf : GatewayConfigPacket)
    (gc : gatewayConfiguration) :
  getGatewayConfig S conf = (gc, Ok) ->
  Forall (fun m => (multiSFChannelConfig.Radio m < length (Radios gc))%nat)
    (MultiSFChannels gc)
  /\ (loRaSTDChannelConfig.Enable (LoRaSTDChannelConfig gc) = true ->
      (loRaSTDChannelConfig.Radio (LoRaSTDChannelConfig gc) < length (Radios gc))%nat)
  /\ (fskChannelConfig.Enable (FSKChannelConfig gc) = true ->
      (fskChannelConfig.Radio (FSKChannelConfig gc) < length (Radios gc))%nat)
  /\ Forall (fun r => radioConfig.Enable r = true) (Radios gc).
Proof.
  intros Hrun. unfold getGatewayConfig in Hrun.
  pose proof (assignChannels_wellFormed _ (sortedChannels S conf) wellFormed_zero)
    as [Hr Hm Hs Hf].
  rewrite Hrun in Hr, Hm, Hs, Hf. simpl in *.
  split_and!; try done.
  - eapply Forall_impl; [exact Hm|].
    intros m [_ (r & Hlook & _)]. by eapply lookup_lt_Some.
  - intros He. destruct (Hs He) as (r & Hlook & _). by eapply lookup_lt_Some.
  - intros He. destruct (Hf He) as (r & Hlook & _). by eapply lookup_lt_Some.
Qed.

Lemma getGatewayConfig_radio_index_witness :
  Forall (fun m => (multiSFChannelConfig.Radio m < length (Radios exampleConfiguration))%nat)
    (MultiSFChannels exampleConfiguration)
  /\ (loRaSTDChannelConfig.Enable (LoRaSTDChannelConfig exampleConfiguration) = true ->
      (loRaSTDChannelConfig.Radio (LoRaSTDChannelConfig exampleConfiguration)
       < length (Radios exampleConfiguration))%nat)
  /\ (fskChannelConfig.Enable (FSKChannelConfig exampleConfiguration) = true ->
      (fskChannelConfig.Radio (FSKChannelConfig exampleConfiguration)
       < length (Radios exampleConfiguration))%nat)
  /\ Forall (fun r => radioConfig.Enable r = true) (Radios exampleConfiguration).
Proof.
  apply (getGatewayConfig_radio_index GoSort.insertion
           (mkGatewayConfigPacket examplePlan) exampleConfiguration).
  vm_compute. reflexivity.
Defined.

(** ** The errors of the assignment *)




(** A LoRa channel without a spreading factor does not make the assignment
    fail: [noSFPlan] is configured, the channel takes a multi-SF slot. *)
Lemma no_spreading_factor_accepted :
  ~ (forall (S : Sorter) (conf : GatewayConfigPacket),
       (exists m, (getGatewayConfig S conf).2 = Err (ErrInvalidModulation m))
       <-> exists c, c ∈ Channels conf
             /\ ((Modulation c = band.LoRaModulation /\ SpreadingFactors c = [])
                 \/ (Modulation c <> band.LoRaModulation
                     /\ Modulation c <> band.FSKModulation))).
Proof.
  intros H.
  destruct (proj2 (H GoSort.insertion (mkGatewayConfigPacket noSFPlan))) as [m Hm].
  - eexists. split; [by apply list_elem_of_singleton|]. by left.
  - vm_compute in Hm. discriminate Hm.
Qed.

(** C6 (amended): the assignment fails with the invalid modulation error
    exactly when, in the sorted order, a channel whose modulation is
    neither LoRa nor FSK comes before any second FSK channel and before any
    second single-SF LoRa channel; the error carries the modulation of the
    first such channel.  A LoRa channel with no spreading factor is not an
    error. *)
Theorem getGatewayConfig_invalid_modulation (S : Sorter) (conf : GatewayConfigPacket)
    (m : band.Modulation) :
  (getGatewayConfig S conf).2 = Err (ErrInvalidModulation m)
  <-> exists pre c post,
        sortedChannels S conf = pre ++ c :: post
        /\ Modulation c = m
        /\ Modulation c <> band.LoRaModulation /\ Modulation c <> band.FSKModulation
        /\ Forall (fun c' => Modulation c' = band.LoRaModulation
                             \/ Modulation c' = band.FSKModulation) pre
        /\ (count isFSK pre <= 1)%nat
        /\ (count isSingleSF pre <= 1)%nat.
Proof.
  rewrite getGatewayConfig_end, loopEnd_invalid.
  assert (Hvalid : forall l,
             Forall (fun c => isInvalid c = false) l
             <-> Forall (fun c' => Modulation c' = band.LoRaModulation
                                   \/ Modulation c' = band.FSKModulation) l).
  { intros l. apply Forall_proper; [|done]. intros c.
    pose proof (isInvalid_spec c) as Hs.
    destruct (isInvalid c); split; intros Hc; try done.
    - exfalso. destruct Hs as [Hs _]. destruct (Hs eq_refl). by destruct Hc.
    - destruct (decide (Modulation c = band.LoRaModulation)); [by left|].
      destruct (decide (Modulation c = band.FSKModulation)); [by right|].
      destruct Hs as [_ Hs]. by discriminate Hs. }
  split.
  - intros (pre & c & post & Hsplit & Hm & Hinv & Hpre).
    apply loopEnd_Ok in Hpre as (Hv & Hf & Hs). simpl in Hf, Hs.
    apply isInvalid_spec in Hinv as [? ?].
    exists pre, c, post. split_and!; try done. by apply Hvalid.
  - intros (pre & c & post & Hsplit & Hm & Hl & Hf & Hv & Hnf & Hns).
    exists pre, c, post. split_and!; try done.
    + by apply isInvalid_spec.
    + apply loopEnd_Ok. simpl. split_and!; try done. by apply Hvalid.
Qed.

(** ** The merge *)

(** C3: however [mergeConfig] ends, the document after the call differs
    from the document before it at most as follows.  In [SX1301_conf], the
    value at a key is the same, or it was a map and is a map in which every
    field but those of [writtenFields] is the same: [enable] and [freq] at
    [radio_<i>] for an index [i] of a radio, [enable], [radio] and [if] at
    [chan_multiSF_<i>] for an index [i] of a multi-SF slot, [enable],
    [radio], [if], [bandwidth], [spread_factor] at [chan_Lora_std] and
    [enable], [radio], [if], [bandwidth], [datarate] at [chan_FSK]; the
    value at every other key is the same.  In [gateway_conf] the value at
    every key but [gateway_ID] is the same.  No key is added to or removed
    from [SX1301_conf], and a map which was nil stays nil. *)
Theorem mergeConfig_frame (mac : EUI64) (config : configFile)
    (newConfig : gatewayConfiguration) :
  let config' := (mergeConfig mac config newConfig).1 in
  (forall key,
     sxLookup config' key = sxLookup config key
     \/ exists node node',
          sxLookup config key = Some (VMap node)
          /\ sxLookup config' key = Some (VMap node')
          /\ forall field, field ∉ writtenFields newConfig key ->
               node' !! field = node !! field)
  /\ (forall key,
        (forall i, (i < length (Radios newConfig))%nat -> key <> radioKey i) ->
        (forall i, (i < length (MultiSFChannels newConfig))%nat ->
           key <> multiSFKey i) ->
        key <> "chan_Lora_std" -> key <> "chan_FSK" ->
        sxLookup config' key = sxLookup config key)
  /\ (forall key, key <> "gateway_ID" ->
        gatewayLookup config' key = gatewayLookup config key)
  /\ (SX1301Conf config' = None <-> SX1301Conf config = None)
  /\ (GatewayConf config' = None <-> GatewayConf config = None).
Proof.
  intros config'.
  destruct (mergeConfig_framed mac config newConfig) as [Hnil Hsx Hgnil Hgw].
  fold config' in Hnil, Hsx, Hgnil, Hgw.
  assert (Hkey : forall key,
             sxLookup config' key = sxLookup config key
             \/ exists node node',
                  sxLookup config key = Some (VMap node)
                  /\ sxLookup config' key = Some (VMap node')
                  /\ forall field, field ∉ writtenFields newConfig key ->
                       node' !! field = node !! field).
  { intros key. destruct (Hsx key) as [H|H]; [by left|by right]. }
  split_and!; try done.
  - intros key Hradio Hmulti Hstd Hfsk.
    destruct (Hkey key) as [H|(node & node' & H1 & H2 & Hsame)]; [done|].
    rewrite H1, H2. do 2 f_equal. apply map_eq. intros field. apply Hsame.
    unfold writtenFields.
    rewrite !decide_False; [by apply not_elem_of_nil|done|done| |].
    + intros (i & -> & Hi%elem_of_seq)%list_elem_of_fmap. by apply (Hmulti i); [lia|].
    + intros (i & -> & Hi%elem_of_seq)%list_elem_of_fmap. by apply (Hradio i); [lia|].
  - intros key Hkey'. apply Hgw. by intros ->%list_elem_of_singleton.
Qed.

(** C9: with no [gateway_conf] in the document the merge does not return
    an error.  All the maps of [SX1301_conf] are there, so the merge
    overwrites them and then panics at the assignment to
    [config.GatewayConf["gateway_ID"]], an entry of a nil map; the document
    is left with the overwrites. *)
Theorem mergeConfig_without_gateway_conf :
  (mergeConfig exampleMAC documentWithoutGatewayConf exampleConfiguration).2 = Panic
  /\ sxLookup (mergeConfig exampleMAC documentWithoutGatewayConf exampleConfiguration).1
       "radio_0" = Some mergedRadio0
  /\ sxLookup documentWithoutGatewayConf "radio_0" <> Some mergedRadio0.
Proof.
  split_and!.
  - vm_compute. reflexivity.
  - vm_compute. reflexivity.
  - vm_compute. intros H. discriminate H.
Qed.

(** X1: when the merge returns an error, the error names the first key, in the
    order of the steps of the merge, at which [SX1301_conf] has no map (no
    value, or a value of another type), together with the type of the
    value; the document holds the overwrites of the steps before that key:
    nothing is rolled back. *)
Theorem mergeConfig_error (mac : EUI64) (config config' : configFile)
    (newConfig : gatewayConfiguration) (e : mergeError) :
  mergeConfig mac config newConfig = (config', Err e) ->
  exists pre key kvs post,
    mergeSteps newConfig = pre ++ (key, kvs) :: post
    /\ Forall (fun step => isMap (index (SX1301Conf config) step.1)) pre
    /\ ~ isMap (index (SX1301Conf config) key)
    /\ e = ErrExpectedMap key (typeName (index (SX1301Conf config) key))
    /\ runSteps pre config = (config', Ok).
Proof.
  rewrite mergeConfig_runSteps. intros H.
  destruct (runSteps (mergeSteps newConfig) config) as [c [|e'|]] eqn:Hrun;
    simpl in H.
  - pose proof (updateGatewayID_not_Err mac c e) as Hne. by rewrite H in Hne.
  - simplify_eq. by apply runSteps_error.
  - done.
Qed.

Lemma mergeConfig_error_witness :
  exists pre key kvs post,
    mergeSteps exampleConfiguration = pre ++ (key, kvs) :: post
    /\ Forall (fun step => isMap (index (SX1301Conf documentWithoutChannel1) step.1)) pre
    /\ ~ isMap (index (SX1301Conf documentWithoutChannel1) key)
    /\ ErrExpectedMap "chan_multiSF_1" "<nil>"
       = ErrExpectedMap key (typeName (index (SX1301Conf documentWithoutChannel1) key))
    /\ runSteps pre documentWithoutChannel1
       = (mkConfigFile
            (Some (<["chan_multiSF_0" := mergedMultiSF0]>
                     (<["radio_0" := mergedRadio0]>
                        (delete "chan_multiSF_1" exampleSX1301Conf))))
            (Some exampleGatewayConf),
          Ok).
Proof.
  apply (mergeConfig_error exampleMAC documentWithoutChannel1).
  vm_compute. reflexivity.
Defined.

(** ** More on the assignment *)

(** *** The order of the input *)

(** No two different channels have the same minimum radio center
    frequency. *)
Definition distinctKeys (channels : list Channel) : Prop :=
  forall ci cj, ci ∈ channels -> cj ∈ channels ->
    minRadioCenterFreq ci = minRadioCenterFreq cj -> ci = cj.

Lemma sortedChannels_unique S1 S2 conf1 conf2 :
  Channels conf1 ≡ₚ Channels conf2 ->
  distinctKeys (Channels conf1) ->
  sortedChannels S1 conf1 = sortedChannels S2 conf2.
Proof.
  intros Hperm Hkeys.
  eapply StronglySorted_unique_strong;
    [|apply sortedChannels_sorted|apply sortedChannels_sorted|].
  - simpl. intros ci cj Hi Hj H1 H2. apply Hkeys; [| |lia].
    + by rewrite <- (sortedChannels_perm S1 conf1).
    + by rewrite Hperm, <- (sortedChannels_perm S2 conf2).
  - by rewrite !sortedChannels_perm.
Qed.

(** X2: when no two different channels of the plan have the same minimum
    radio center frequency, the result of [getGatewayConfig] depends
    neither on the order in which the plan lists the channels nor on the
    implementation of [sort.Sort]. *)
Theorem getGatewayConfig_order_independent (S1 S2 : Sorter)
    (conf1 conf2 : GatewayConfigPacket) :
  Channels conf1 ≡ₚ Channels conf2 ->
  distinctKeys (Channels conf1) ->
  getGatewayConfig S1 conf1 = getGatewayConfig S2 conf2.
Proof.
  intros Hperm Hkeys. unfold getGatewayConfig.
  by rewrite (sortedChannels_unique S1 S2 conf1 conf2).
Qed.

Lemma examplePlan_distinctKeys : distinctKeys examplePlan.
Proof.
  intros ci cj Hi Hj. unfold examplePlan in Hi, Hj.
  repeat (apply elem_of_cons in Hi as [->|Hi]);
    try (by apply elem_of_nil in Hi);
    repeat (apply elem_of_cons in Hj as [->|Hj]);
    try (by apply elem_of_nil in Hj);
    vm_compute; intros H; try reflexivity; discriminate H.
Qed.

Lemma getGatewayConfig_order_independent_witness :
  getGatewayConfig GoSort.insertion (mkGatewayConfigPacket examplePlan)
  = getGatewayConfig GoSort.short (mkGatewayConfigPacket (reverse examplePlan)).
Proof.
  apply getGatewayConfig_order_independent.
  - simpl. by rewrite reverse_Permutation.
  - exact examplePlan_distinctKeys.
Defined.

(** *** The centers of the radios *)

Lemma newRadio_center c :
  channelMinOf c +i (radioBandwidthOf c /i 2) = minRadioCenterFreq c.
Proof. reflexivity. Qed.

(** The radios of [gc] are in ascending order of center, every center is
    the minimum radio center frequency of one of [channels], and there are
    no more radios than [channels]. *)
Record radiosFrom (channels : list Channel) (gc : gatewayConfiguration) : Prop := {
  radios_ascending : StronglySorted Z.le (radioConfig.Freq <$> Radios gc);
  radios_centers :
    Forall (fun r => exists c, c ∈ channels
                       /\ radioConfig.Freq r = minRadioCenterFreq c) (Radios gc);
  radios_count : (length (Radios gc) <= length channels)%nat
}.

Lemma assignChannel_radiosFrom seen c gc :
  radiosFrom seen gc ->
  Forall (fun r => radioConfig.Freq r <= minRadioCenterFreq c) (Radios gc) ->
  radiosFrom (seen ++ [c]) (assignChannel gc c).1
  /\ Forall (fun r => radioConfig.Freq r <= minRadioCenterFreq c)
       (Radios (assignChannel gc c).1).
Proof.
  intros [Hasc Hcen Hcnt] Hle.
  destruct (assignChannel gc c) as [gc' res] eqn:Hstep.
  destruct (assignChannel_slot _ _ _ _ Hstep) as (radio & r & Hfit & _ & _).
  simpl.
  assert (Hmono : Forall (fun r => exists c0, c0 ∈ seen ++ [c]
                    /\ radioConfig.Freq r = minRadioCenterFreq c0) (Radios gc)).
  { eapply Forall_impl; [exact Hcen|]. intros r0 (c0 & Hc0 & E).
    exists c0. split; [|done]. apply elem_of_app. by left. }
  destruct Hfit as [(r0 & _ & _ & _ & Heq)|(_ & Heq & _)];
    (split; [split|]); rewrite ?Heq, ?newRadio_center.
  - done.
  - done.
  - rewrite length_app. simpl. lia.
  - done.
  - rewrite fmap_app. apply StronglySorted_app.
    split_and!; [|done|by repeat constructor].
    intros x y Hx Hy. apply list_elem_of_singleton in Hy as ->.
    apply list_elem_of_fmap in Hx as (r0 & -> & Hr0).
    rewrite Forall_forall in Hle. by apply Hle.
  - apply Forall_app. split; [done|]. repeat constructor.
    exists c. split; [|done]. apply elem_of_app. right.
    by apply list_elem_of_singleton.
  - rewrite !length_app. simpl. lia.
  - apply Forall_app. split; [done|]. repeat constructor. simpl. lia.
Qed.

Lemma assignChannels_radiosFrom seen channels gc :
  byMinRadioCenterFreq channels ->
  radiosFrom seen gc ->
  Forall (fun r => Forall (fun c => radioConfig.Freq r <= minRadioCenterFreq c) channels)
    (Radios gc) ->
  radiosFrom (seen ++ channels) (assignChannels gc channels).1.
Proof.
  revert seen gc; induction channels as [|c l IH]; intros seen gc Hsorted Hfrom Hle; simpl.
  { by rewrite app_nil_r. }
  apply StronglySorted_cons in Hsorted as [Hc Hl].
  destruct (assignChannel_radiosFrom seen c gc Hfrom) as [Hfrom' Hle'].
  { eapply Forall_impl; [exact Hle|]. intros r Hr. by apply Forall_cons in Hr as [? _]. }
  assert (Hgrow : forall l', radiosFrom (seen ++ [c]) (assignChannel gc c).1 ->
                             radiosFrom (seen ++ c :: l') (assignChannel gc c).1).
  { intros l' [A B C]. split; [done| |].
    - eapply Forall_impl; [exact B|]. intros r (c0 & Hc0 & E). exists c0.
      split; [|done].
      apply elem_of_app in Hc0 as [H|H]; apply elem_of_app; [by left|right].
      apply list_elem_of_singleton in H as ->. by left.
    - rewrite length_app in *. simpl in *. lia. }
  destruct (assignChannel gc c) as [gc' [| |]] eqn:Hstep; simpl in *;
    try (by apply Hgrow).
  replace (seen ++ c :: l) with ((seen ++ [c]) ++ l)
    by (rewrite <- app_assoc; reflexivity).
  apply IH; try done.
  eapply Forall_impl; [exact Hle'|]. intros r Hr. simpl in Hr.
  eapply Forall_impl; [exact Hc|]. intros c' Hc'. simpl in Hc'. lia.
Qed.

(** X3: whichever way [getGatewayConfig] ends, the radios it returns are in
    ascending order of center frequency (radio 0 is the lowest), the center
    of every radio is the minimum radio center frequency
    [Frequency - channelBandwidth/2 + radioBandwidth/2] of a channel of the
    plan, and there are at most as many radios as channels.  No other bound
    is put on the number of radios. *)
Theorem getGatewayConfig_radios (S : Sorter) (conf : GatewayConfigPacket) :
  StronglySorted Z.le (radioConfig.Freq <$> Radios (getGatewayConfig S conf).1)
  /\ Forall (fun r => exists c, c ∈ Channels conf
                        /\ radioConfig.Freq r = minRadioCenterFreq c)
       (Radios (getGatewayConfig S conf).1)
  /\ (length (Radios (getGatewayConfig S conf).1) <= length (Channels conf))%nat.
Proof.
  destruct (assignChannels_radiosFrom [] (sortedChannels S conf) zeroGatewayConfiguration)
    as [A B C].
  - apply sortedChannels_sorted.
  - split; simpl; [constructor|constructor|lia].
  - constructor.
  - simpl in *. unfold getGatewayConfig. split_and!; [done| |].
    + eapply Forall_impl; [exact B|]. intros r (c & Hc & E). exists c.
      split; [|done]. by rewrite <- (sortedChannels_perm S conf).
    + by rewrite <- (sortedChannels_perm S conf).
Qed.

(** *** The window of the radio of a channel *)

Lemma wrap_shift z :
  exists k, GoInt.wrap z = z + k * 2 ^ 64 /\ GoInt.inRange (GoInt.wrap z).
Proof.
  split with (- ((z + 2 ^ 63) / 2 ^ 64)). split; [|apply GoInt.wrap_inRange].
  unfold GoInt.wrap, GoInt.intSize.
  change (64 - 1) with 63.
  pose proof (Z.div_mod (z + 2 ^ 63) (2 ^ 64) ltac:(lia)). lia.
Qed.

Lemma assignChannel_keeps gc c' gc' c0 radio r ifo :
  assignChannel gc c' = (gc', Ok) ->
  Radios gc !! radio = Some r -> slotOf gc c0 radio ifo ->
  Radios gc' !! radio = Some r /\ slotOf gc' c0 radio ifo.
Proof.
  intros Hstep Hr Hslot.
  destruct (assignChannel_cases gc c')
    as (gc1 & radio1 & r1 & _ & Hfit & Em & Es & Ef & _ & Hconf).
  destruct (firstFit_lookup _ _ _ _ Hfit) as [_ [ext Hext]].
  rewrite Hstep in Hconf.
  assert (Hr1 : Radios gc1 !! radio = Some r).
  { rewrite Hext. by apply lookup_app_l_Some. }
  inversion Hconf as [Hk He| |sf Hk1 Hk2 Hsf He| |Hk1 Hk2 Hk3|]; subst; clear Hconf;
    (split; [done|]); simpl;
    destruct Hslot as [[? Hs]|[(?&?&sf0&?&Hs)|(?&?&?&Hs)]].
  - rewrite Ef, Hs in He. done.
  - right; left. split_and!; try done. exists sf0. by rewrite Es.
  - right; right. split_and!; try done. by rewrite Em.
  - left. split; [done|]. by rewrite Ef.
  - rewrite Es, Hs in He. done.
  - right; right. split_and!; try done. by rewrite Em.
  - left. split; [done|]. by rewrite Ef.
  - right; left. split_and!; try done. exists sf0. by rewrite Es.
  - right; right. split_and!; try done. apply elem_of_app. left. by rewrite Em.
Qed.

(** Channel [c] has its slot in [gc], on a radio whose window contains the
    channel or which was created for the channel. *)
Definition placed (gc : gatewayConfiguration) (c : Channel) : Prop :=
  exists radio r,
    Radios gc !! radio = Some r
    /\ slotOf gc c radio (Frequency c -i radioConfig.Freq r)
    /\ (windowContains (radioConfig.Freq r) c
        \/ radioConfig.Freq r = minRadioCenterFreq c).

Lemma assignChannels_placed gc channels gc' :
  assignChannels gc channels = (gc', Ok) ->
  (forall c, c ∈ channels -> placed gc' c)
  /\ forall c0, placed gc c0 -> placed gc' c0.
Proof.
  revert gc; induction channels as [|c l IH]; intros gc H; simpl in H.
  { simplify_eq. split; [|done]. intros c Hc. by apply elem_of_nil in Hc. }
  destruct (assignChannel gc c) as [gc1 [| |]] eqn:Hstep; try done.
  destruct (IH _ H) as [Hl Hkeep].
  assert (Hkeep1 : forall c0, placed gc c0 -> placed gc1 c0).
  { intros c0 (radio & r & Hr & Hslot & Hwin).
    destruct (assignChannel_keeps _ _ _ _ _ _ _ Hstep Hr Hslot) as [Hr' Hslot'].
    by exists radio, r. }
  split; [|by auto].
  intros c1 [->|Hin]%elem_of_cons; [|by auto].
  apply Hkeep.
  destruct (assignChannel_slot _ _ _ _ Hstep) as (radio & r & Hfit & Hr & Hslot).
  exists radio, r. split_and!; [done|by apply Hslot|].
  destruct Hfit as [(r0 & Hr0 & Hwin & _ & Heq)|(_ & Heq & Hlen)].
  - left. rewrite Heq in Hr. by simplify_eq.
  - right. rewrite Heq, Hlen, lookup_app_r, Nat.sub_diag in Hr by lia.
    by simplify_eq/=.
Qed.

(** A channel of one of the three bandwidths of the table, at a frequency
    far from the ends of the range of [int]. *)
Definition standard (c : Channel) : Prop :=
  (Bandwidth c = 125 \/ Bandwidth c = 250 \/ Bandwidth c = 500)
  /\ - 2 ^ 62 <= Frequency c <= 2 ^ 62.

Lemma window_arith F center hc hr :
  - 2 ^ 62 <= F <= 2 ^ 62 -> 0 <= hc <= hr -> hr <= 1000000 ->
  GoInt.inRange center ->
  (center -i hr <= F -i hc /\ F +i hc <= center +i hr)
  \/ center = F -i hc +i hr ->
  (center -i hr <= F -i hc /\ F +i hc <= center +i hr)
  /\ F -i center = F - center
  /\ Z.abs (F - center) <= hr - hc.
Proof.
  intros HF Hh Hr Hc Hwin. unfold GoInt.add, GoInt.sub in *.
  destruct (wrap_shift (F - hc)) as (k1 & E1 & R1).
  destruct (wrap_shift (F + hc)) as (k2 & E2 & R2).
  destruct (wrap_shift (center - hr)) as (k3 & E3 & R3).
  destruct (wrap_shift (center + hr)) as (k4 & E4 & R4).
  destruct (wrap_shift (F - center)) as (k5 & E5 & R5).
  destruct (wrap_shift (GoInt.wrap (F - hc) + hr)) as (k6 & E6 & R6).
  unfold GoInt.inRange, GoInt.minInt, GoInt.maxInt, GoInt.intSize in *.
  change (64 - 1) with 63 in *.
  rewrite E6 in Hwin. rewrite E1, E2, E3, E4, E5 in *.
  destruct Hwin as [Hwin|Hwin]; lia.
Qed.

Lemma standard_window c center :
  standard c -> GoInt.inRange center ->
  windowContains center c \/ center = minRadioCenterFreq c ->
  windowContains center c
  /\ Frequency c -i center = Frequency c - center
  /\ Z.abs (Frequency c - center)
     <= radioBandwidthOf c / 2 - channelBandwidthOf c / 2.
Proof.
  intros [Hbw Hf] Hc Hwin.
  unfold windowContains, minRadioCenterFreq in *.
  unfold radioBandwidthOf, channelMinOf, channelMaxOf, channelBandwidthOf in *.
  assert (Hcase : (Bandwidth c *i 1000 = 125000
                   /\ radioBandwidth (Bandwidth c *i 1000) = 925000)
                  \/ (Bandwidth c *i 1000 = 250000
                      /\ radioBandwidth (Bandwidth c *i 1000) = 1000000)
                  \/ (Bandwidth c *i 1000 = 500000
                      /\ radioBandwidth (Bandwidth c *i 1000) = 1100000)).
  { destruct Hbw as [-> | [-> | ->]]; [left|right; left|right; right]; by vm_compute. }
  destruct Hcase as [[E1 E2] | [[E1 E2] | [E1 E2]]]; rewrite E1, E2 in *.
  - apply (window_arith (Frequency c) center 62500 462500); try done; lia.
  - apply (window_arith (Frequency c) center 125000 500000); try done; lia.
  - apply (window_arith (Frequency c) center 250000 550000); try done; lia.
Qed.

Lemma getGatewayConfig_radio_inRange S conf r :
  r ∈ Radios (getGatewayConfig S conf).1 -> GoInt.inRange (radioConfig.Freq r).
Proof.
  intros Hr.
  destruct (assignChannels_radiosFrom [] (sortedChannels S conf) zeroGatewayConfiguration)
    as [_ B _].
  - apply sortedChannels_sorted.
  - split; simpl; [constructor|constructor|lia].
  - constructor.
  - rewrite Forall_forall in B. destruct (B r Hr) as (c & _ & ->).
    apply GoInt.wrap_inRange.
Qed.

(** X4: when the assignment succeeds, every channel of the plan with a
    bandwidth of 125, 250 or 500 kHz (and a frequency between [-2^62] and
    [2^62], where the arithmetic of [int] does not wrap) has its slot on a
    radio whose window contains the channel.  The intermediate frequency in
    the slot is the integer difference [F - C], and its absolute value is at
    most [radioBandwidth/2 - channelBandwidth/2]: 400000, 375000 and
    300000 Hz for the three bandwidths. *)
Theorem getGatewayConfig_window (S : Sorter) (conf : GatewayConfigPacket)
    (gc : gatewayConfiguration) (c : Channel) :
  getGatewayConfig S conf = (gc, Ok) ->
  c ∈ Channels conf ->
  standard c ->
  exists radio r,
    Radios gc !! radio = Some r
    /\ slotOf gc c radio (Frequency c - radioConfig.Freq r)
    /\ windowContains (radioConfig.Freq r) c
    /\ Z.abs (Frequency c - radioConfig.Freq r)
       <= radioBandwidthOf c / 2 - channelBandwidthOf c / 2.
Proof.
  intros Hrun Hc Hstd.
  pose proof Hrun as Hrun'. unfold getGatewayConfig in Hrun'.
  destruct (assignChannels_placed _ _ _ Hrun') as [Hall _].
  destruct (Hall c) as (radio & r & Hr & Hslot & Hwin).
  { by rewrite sortedChannels_perm. }
  assert (Hrange : GoInt.inRange (radioConfig.Freq r)).
  { apply (getGatewayConfig_radio_inRange S conf). rewrite Hrun. simpl.
    by eapply list_elem_of_lookup_2. }
  destruct (standard_window c _ Hstd Hrange Hwin) as (Hw & Hexact & Hbound).
  exists radio, r. split_and!; [done|by rewrite <- Hexact|done|done].
Qed.

Lemma getGatewayConfig_window_witness :
  exists radio r,
    Radios exampleConfiguration !! radio = Some r
    /\ slotOf exampleConfiguration
         (mkChannel band.FSKModulation 868800000 250 50000 []) radio
         (868800000 - radioConfig.Freq r)
    /\ windowContains (radioConfig.Freq r)
         (mkChannel band.FSKModulation 868800000 250 50000 [])
    /\ Z.abs (868800000 - radioConfig.Freq r) <= 1000000 / 2 - 250000 / 2.
Proof.
  apply (getGatewayConfig_window GoSort.insertion (mkGatewayConfigPacket examplePlan)
           exampleConfiguration (mkChannel band.FSKModulation 868800000 250 50000 [])).
  - vm_compute. reflexivity.
  - simpl. unfold examplePlan. rewrite !elem_of_cons. tauto.
  - split; [by right; left|]. simpl. lia.
Defined.

(** *** The slots and the channels *)

Lemma count_filter kind channels :
  count kind channels = length (List.filter kind channels).
Proof. induction channels as [|c l IH]; simpl; [done|]. destruct (kind c); simpl; lia. Qed.

Lemma count_pos kind channels :
  (0 < count kind channels)%nat -> exists c, c ∈ channels /\ kind c = true.
Proof.
  induction channels as [|c l IH]; simpl; [lia|].
  destruct (kind c) eqn:Hk.
  - intros _. exists c. split; [by left|done].
  - intros H. destruct (IH H) as (c' & Hc' & Hk'). exists c'. split; [by right|done].
Qed.

Lemma assignChannels_census gc channels gc' :
  assignChannels gc channels = (gc', Ok) ->
  multiSFChannelConfig.Freq <$> MultiSFChannels gc'
    = (multiSFChannelConfig.Freq <$> MultiSFChannels gc)
      ++ (Frequency <$> List.filter isMultiSF channels)
  /\ (count isFSK channels = 0%nat -> FSKChannelConfig gc' = FSKChannelConfig gc)
  /\ (count isSingleSF channels = 0%nat ->
      LoRaSTDChannelConfig gc' = LoRaSTDChannelConfig gc).
Proof.
  revert gc; induction channels as [|c l IH]; intros gc H; simpl in H.
  { simplify_eq. simpl. by rewrite app_nil_r. }
  destruct (assignChannel gc c) as [gc1 [| |]] eqn:Hstep; try done.
  destruct (IH _ H) as (Hm & Hf & Hs). clear IH H.
  destruct (assignChannel_cases gc c)
    as (gc0 & radio & r & _ & _ & Em & Es & Ef & _ & Hconf).
  rewrite Hstep in Hconf. unfold isMultiSF at 1. simpl.
  inversion Hconf as [Hk He| |sf Hk1 Hk2 Hsf He| |Hk1 Hk2 Hk3|]; subst; clear Hconf;
    simpl in *.
  - rewrite (isFSK_not_LoRa _ Hk), Hk. simpl.
    assert (isSingleSF c = false) as ->
      by (unfold isSingleSF; by rewrite (isFSK_not_LoRa _ Hk)).
    split_and!; [by rewrite Hm, Em|lia|].
    intros Hz. by rewrite Hs, Es.
  - rewrite Hk1, Hk2. pose proof Hk2 as Hk2'. unfold isSingleSF in Hk2'.
    apply andb_true_iff in Hk2' as [-> ->]. simpl.
    split_and!; [by rewrite Hm, Em| |lia].
    intros Hz. by rewrite Hf, Ef.
  - rewrite Hk1, Hk2, Hk3. unfold isSingleSF in Hk2. rewrite Hk3 in Hk2.
    simpl in Hk2. rewrite Hk2. simpl.
    split_and!.
    + rewrite Hm, fmap_app, Em. simpl. by rewrite <- app_assoc.
    + intros Hz. by rewrite Hf, Ef.
    + intros Hz. by rewrite Hs, Es.
Qed.

(** X5: when the assignment succeeds, the multi-SF slots are, in this
    order, the LoRa channels of the sorted plan with a number of spreading
    factors other than one (none included: there are as many slots as such
    channels, with no limit); the FSK slot is enabled exactly when the plan
    has an FSK channel and is the zero value otherwise, and so is the LoRa
    STD slot for the LoRa channel of one spreading factor. *)
Theorem getGatewayConfig_census (S : Sorter) (conf : GatewayConfigPacket)
    (gc : gatewayConfiguration) :
  getGatewayConfig S conf = (gc, Ok) ->
  multiSFChannelConfig.Freq <$> MultiSFChannels gc
    = Frequency <$> List.filter isMultiSF (sortedChannels S conf)
  /\ length (MultiSFChannels gc) = count isMultiSF (Channels conf)
  /\ (fskChannelConfig.Enable (FSKChannelConfig gc) = true
      <-> count isFSK (Channels conf) = 1%nat)
  /\ (count isFSK (Channels conf) = 0%nat -> FSKChannelConfig gc = fskChannelConfig.zero)
  /\ (loRaSTDChannelConfig.Enable (LoRaSTDChannelConfig gc) = true
      <-> count isSingleSF (Channels conf) = 1%nat)
  /\ (count isSingleSF (Channels conf) = 0%nat ->
      LoRaSTDChannelConfig gc = loRaSTDChannelConfig.zero).
Proof.
  intros Hrun. pose proof Hrun as Hrun'. unfold getGatewayConfig in Hrun'.
  pose proof (sortedChannels_perm S conf) as Hperm.
  destruct (assignChannels_census _ _ _ Hrun') as (Hm & Hf & Hs). simpl in Hm.
  destruct (assignChannels_assigned _ _ _ Hrun') as [Hall _].
  assert (Hok : loopEnd false false (sortedChannels S conf) = Ok).
  { rewrite <- getGatewayConfig_end. by rewrite Hrun. }
  apply loopEnd_Ok in Hok as (_ & Hnf & Hns). simpl in Hnf, Hns.
  rewrite (count_perm isFSK _ _ Hperm) in Hf, Hnf.
  rewrite (count_perm isSingleSF _ _ Hperm) in Hs, Hns.
  split_and!; try done.
  - rewrite <- (count_perm _ _ _ Hperm), count_filter.
    rewrite <- (length_fmap multiSFChannelConfig.Freq), Hm.
    by rewrite length_fmap.
  - split.
    + intros He. destruct (count isFSK (Channels conf)) as [|[|n]] eqn:Hn; [|done|lia].
      rewrite Hf in He by done. done.
    + intros Hone.
      destruct (count_pos isFSK (Channels conf)) as (c & Hc & Hk); [lia|].
      destruct (Hall c) as (radio & r & _ & Hslot); [by rewrite Hperm|].
      destruct Hslot as [[_ ->]|[(Hk' & _)|(Hk' & _)]]; [done|congruence..].
  - split.
    + intros He. destruct (count isSingleSF (Channels conf)) as [|[|n]] eqn:Hn; [|done|lia].
      rewrite Hs in He by done. done.
    + intros Hone.
      destruct (count_pos isSingleSF (Channels conf)) as (c & Hc & Hk); [lia|].
      destruct (Hall c) as (radio & r & _ & Hslot); [by rewrite Hperm|].
      destruct Hslot as [[Hk' _]|[(_ & _ & sf & _ & ->)|(_ & Hk' & _)]];
        [|done|congruence].
      apply isFSK_not_LoRa in Hk'. apply isSingleSF_isLoRa in Hk. congruence.
Qed.

Lemma getGatewayConfig_census_witness :
  multiSFChannelConfig.Freq <$> MultiSFChannels exampleConfiguration
    = Frequency <$> List.filter isMultiSF
                      (sortedChannels GoSort.insertion (mkGatewayConfigPacket examplePlan))
  /\ length (MultiSFChannels exampleConfiguration) = count isMultiSF examplePlan
  /\ (fskChannelConfig.Enable (FSKChannelConfig exampleConfiguration) = true
      <-> count isFSK examplePlan = 1%nat)
  /\ (count isFSK examplePlan = 0%nat ->
      FSKChannelConfig exampleConfiguration = fskChannelConfig.zero)
  /\ (loRaSTDChannelConfig.Enable (LoRaSTDChannelConfig exampleConfiguration) = true
      <-> count isSingleSF examplePlan = 1%nat)
  /\ (count isSingleSF examplePlan = 0%nat ->
      LoRaSTDChannelConfig exampleConfiguration = loRaSTDChannelConfig.zero).
Proof.
  apply (getGatewayConfig_census GoSort.insertion (mkGatewayConfigPacket examplePlan)).
  vm_compute. reflexivity.
Defined.

(** *** A channel wider than the radio bandwidth *)

(** A channel of more than 925 kHz, the default radio bandwidth, which is
    none of the bandwidths of the table. *)
Definition wide (c : Channel) : Prop :=
  925 < Bandwidth c <= 10 ^ 9 /\ - 2 ^ 62 <= Frequency c <= 2 ^ 62.

Lemma narrow_window F center hc hr :
  - 2 ^ 62 <= F <= 2 ^ 62 -> 0 <= hr < hc -> hc <= 10 ^ 12 ->
  GoInt.inRange center ->
  ~ (center -i hr <= F -i hc /\ F +i hc <= center +i hr).
Proof.
  intros HF Hh Hc Hr. unfold GoInt.add, GoInt.sub.
  destruct (wrap_shift (F - hc)) as (k1 & E1 & R1).
  destruct (wrap_shift (F + hc)) as (k2 & E2 & R2).
  destruct (wrap_shift (center - hr)) as (k3 & E3 & R3).
  destruct (wrap_shift (center + hr)) as (k4 & E4 & R4).
  unfold GoInt.inRange, GoInt.minInt, GoInt.maxInt, GoInt.intSize in *.
  change (64 - 1) with 63 in *.
  rewrite E1, E2, E3, E4 in *. lia.
Qed.

Lemma wide_window c center :
  wide c -> GoInt.inRange center -> ~ windowContains center c.
Proof.
  intros [Hbw Hf] Hc.
  unfold windowContains, radioBandwidthOf, channelMinOf, channelMaxOf, channelBandwidthOf.
  assert (Hcb : Bandwidth c *i 1000 = Bandwidth c * 1000).
  { apply GoInt.wrap_id. unfold GoInt.inRange, GoInt.minInt, GoInt.maxInt, GoInt.intSize.
    change (64 - 1) with 63. lia. }
  rewrite Hcb, radioBandwidth_cases.
  rewrite !decide_False by lia.
  assert (Hq : (Bandwidth c * 1000) /i 2 = Bandwidth c * 500).
  { unfold GoInt.div. rewrite Z.quot_div_nonneg by lia.
    replace (Bandwidth c * 1000) with (Bandwidth c * 500 * 2) by lia.
    by rewrite Z.div_mul. }
  rewrite Hq. change (925000 /i 2) with 462500.
  apply narrow_window; try done; lia.
Qed.

(** X6: the bandwidth of a channel is not checked against the radio
    bandwidth.  When the assignment succeeds, a channel of the plan which is
    wider than 925 kHz has its slot on a radio created for it, at its own
    minimum radio center frequency, although the window of that radio does
    not contain the channel. *)
Theorem getGatewayConfig_wide_channel (S : Sorter) (conf : GatewayConfigPacket)
    (gc : gatewayConfiguration) (c : Channel) :
  getGatewayConfig S conf = (gc, Ok) ->
  c ∈ Channels conf ->
  wide c ->
  exists radio r,
    Radios gc !! radio = Some r
    /\ slotOf gc c radio (Frequency c -i radioConfig.Freq r)
    /\ radioConfig.Freq r = minRadioCenterFreq c
    /\ ~ windowContains (radioConfig.Freq r) c.
Proof.
  intros Hrun Hc Hwide.
  pose proof Hrun as Hrun'. unfold getGatewayConfig in Hrun'.
  destruct (assignChannels_placed _ _ _ Hrun') as [Hall _].
  destruct (Hall c) as (radio & r & Hr & Hslot & Hwin).
  { by rewrite sortedChannels_perm. }
  assert (Hrange : GoInt.inRange (radioConfig.Freq r)).
  { apply (getGatewayConfig_radio_inRange S conf). rewrite Hrun. simpl.
    by eapply list_elem_of_lookup_2. }
  pose proof (wide_window c _ Hwide Hrange) as Hno.
  exists radio, r. split_and!; try done.
  by destruct Hwin.
Qed.

(** A LoRa channel of 1000 kHz, and the configuration of the plan which
    has this channel only. *)
Definition wideChannel : Channel :=
  mkChannel band.LoRaModulation 868500000 1000 0 [7; 8].
Definition wideConfiguration : gatewayConfiguration :=
  mkGatewayConfiguration [radioConfig.mk true 868462500]
    [multiSFChannelConfig.mk true 0 37500 868500000]
    loRaSTDChannelConfig.zero fskChannelConfig.zero.

Lemma getGatewayConfig_wide_channel_witness :
  exists radio r,
    Radios wideConfiguration !! radio = Some r
    /\ slotOf wideConfiguration wideChannel radio
         (Frequency wideChannel -i radioConfig.Freq r)
    /\ radioConfig.Freq r = minRadioCenterFreq wideChannel
    /\ ~ windowContains (radioConfig.Freq r) wideChannel.
Proof.
  apply (getGatewayConfig_wide_channel GoSort.insertion
           (mkGatewayConfigPacket [wideChannel]) wideConfiguration wideChannel).
  - vm_compute. reflexivity.
  - simpl. by apply list_elem_of_singleton.
  - split; simpl; lia.
Defined.

(** ** More on the merge *)

(** *** The keys of the steps *)

Lemma radioKey_inj i j : radioKey i = radioKey j -> i = j.
Proof. unfold radioKey. intros H. simplify_eq/=. by apply (inj pretty). Qed.

Lemma multiSFKey_inj i j : multiSFKey i = multiSFKey j -> i = j.
Proof. unfold multiSFKey. intros H. simplify_eq/=. by apply (inj pretty). Qed.

Lemma radioSteps_keys k radios :
  (radioSteps k radios).*1 = radioKey <$> seq k (length radios).
Proof.
  revert k; induction radios as [|r rs IH]; intros k; simpl; [done|]. by rewrite IH.
Qed.

Lemma multiSFSteps_keys k channels :
  (multiSFSteps k channels).*1 = multiSFKey <$> seq k (length channels).
Proof.
  revert k; induction channels as [|r rs IH]; intros k; simpl; [done|]. by rewrite IH.
Qed.

Lemma mergeSteps_keys newConfig :
  (mergeSteps newConfig).*1
  = (radioKey <$> seq 0 (length (Radios newConfig)))
    ++ (multiSFKey <$> seq 0 (length (MultiSFChannels newConfig)))
    ++ ["chan_Lora_std"; "chan_FSK"].
Proof.
  unfold mergeSteps. by rewrite !fmap_app, radioSteps_keys, multiSFSteps_keys.
Qed.

(** The keys of the steps are pairwise different. *)
Lemma mergeSteps_NoDup newConfig : NoDup (mergeSteps newConfig).*1.
Proof.
  rewrite mergeSteps_keys.
  apply NoDup_app. split_and!.
  - apply (NoDup_fmap_2_strong radioKey); [|apply NoDup_seq].
    intros i j _ _. apply radioKey_inj.
  - intros key (i & -> & _)%list_elem_of_fmap Hin.
    apply elem_of_app in Hin as [(j & E & _)%list_elem_of_fmap|Hin].
    + unfold radioKey, multiSFKey in E. by simplify_eq/=.
    + unfold radioKey in Hin. rewrite !elem_of_cons, elem_of_nil in Hin.
      destruct Hin as [E|[E|[]]]; by simplify_eq/=.
  - apply NoDup_app. split_and!.
    + apply (NoDup_fmap_2_strong multiSFKey); [|apply NoDup_seq].
      intros i j _ _. apply multiSFKey_inj.
    + intros key (i & -> & _)%list_elem_of_fmap Hin.
      unfold multiSFKey in Hin. rewrite !elem_of_cons, elem_of_nil in Hin.
      destruct Hin as [E|[E|[]]]; by simplify_eq/=.
    + apply NoDup_cons. split; [|apply NoDup_singleton].
      by intros E%list_elem_of_singleton.
Qed.

(** *** What a successful merge leaves in the document *)

(** The map holds every assignment of the list. *)
Definition holds (kvs : list (string * value)) (node : gmap string value) : Prop :=
  Forall (fun kv => node !! kv.1 = Some kv.2) kvs.

(** The step has been carried out on the document. *)
Definition applied (config : configFile) (step : string * list (string * value))
    : Prop :=
  exists node, sxLookup config step.1 = Some (VMap node) /\ holds step.2 node.

Lemma assignAll_holds node kvs : NoDup kvs.*1 -> holds kvs (assignAll node kvs).
Proof.
  unfold holds, assignAll.
  revert node; induction kvs as [|[k v] kvs IH]; intros node Hnd; simpl; [constructor|].
  apply NoDup_cons in Hnd as [Hk Hnd]. constructor; [|by apply IH].
  simpl. change (foldl _ _ kvs) with (assignAll (<[k:=v]> node) kvs).
  rewrite assignAll_other by done. by rewrite lookup_insert_eq.
Qed.

Lemma assignAll_id node kvs : holds kvs node -> assignAll node kvs = node.
Proof.
  unfold holds, assignAll.
  induction 1 as [|[k v] kvs Hk _ IH]; simpl; [done|].
  simpl in Hk. by rewrite insert_id.
Qed.

Lemma updateNode_applied key kvs config config' :
  NoDup kvs.*1 ->
  updateNode key kvs config = (config', Ok) ->
  applied config' (key, kvs).
Proof.
  intros Hnd. unfold updateNode.
  destruct (index (SX1301Conf config) key) as [| | | | | |node] eqn:Hidx; intros H;
    simplify_eq.
  destruct config as [[sx|] gw]; simpl in *; [|done].
  exists (assignAll node kvs). split; [|by apply assignAll_holds].
  unfold sxLookup. simpl. by rewrite lookup_insert_eq.
Qed.

Lemma updateNode_other key kvs config key' :
  key' <> key ->
  sxLookup (updateNode key kvs config).1 key' = sxLookup config key'.
Proof.
  intros Hne. unfold updateNode.
  destruct (index (SX1301Conf config) key); try done.
  destruct config as [[sx|] gw]; simpl; [|done].
  unfold sxLookup. simpl. by rewrite lookup_insert_ne.
Qed.

Lemma runSteps_other steps config key' :
  key' ∉ steps.*1 ->
  sxLookup (runSteps steps config).1 key' = sxLookup config key'.
Proof.
  revert config; induction steps as [|[key kvs] l IH]; intros config Hnot; simpl; [done|].
  apply not_elem_of_cons in Hnot as [Hne Hnot].
  pose proof (updateNode_other key kvs config key' Hne) as Hstep.
  destruct (updateNode key kvs config) as [c [| |]]; simpl in *; try done.
  by rewrite IH.
Qed.

Lemma runSteps_applied steps config config' :
  NoDup steps.*1 ->
  Forall (fun step => NoDup step.2.*1) steps ->
  runSteps steps config = (config', Ok) ->
  Forall (applied config') steps.
Proof.
  revert config; induction steps as [|[key kvs] l IH]; intros config Hnd Hkv H;
    simpl in *; [constructor|].
  apply NoDup_cons in Hnd as [Hkey Hnd]. apply Forall_cons in Hkv as [Hkvs Hkv].
  destruct (updateNode key kvs config) as [c [| |]] eqn:Hstep; simpl in H; try done.
  constructor; [|by eapply IH].
  destruct (updateNode_applied _ _ _ _ Hkvs Hstep) as (node & Hnode & Hholds).
  exists node. split; [|done]. simpl in *.
  assert (config' = (runSteps l c).1) as -> by (by rewrite H).
  by rewrite runSteps_other.
Qed.

Lemma updateNode_again config step :
  applied config step -> updateNode step.1 step.2 config = (config, Ok).
Proof.
  intros (node & Hnode & Hholds). unfold updateNode.
  destruct config as [[sx|] gw]; unfold sxLookup in Hnode; simpl in *; [|done].
  rewrite Hnode. simpl. rewrite (assignAll_id _ _ Hholds).
  by rewrite insert_id.
Qed.

Lemma runSteps_again steps config :
  Forall (applied config) steps -> runSteps steps config = (config, Ok).
Proof.
  induction 1 as [|step l Hstep _ IH]; simpl; [done|].
  by rewrite (updateNode_again _ _ Hstep).
Qed.

Lemma mergeSteps_fields newConfig :
  Forall (fun step => NoDup step.2.*1) (mergeSteps newConfig).
Proof.
  assert (Hr : forall k radios, Forall (fun step => NoDup step.2.*1) (radioSteps k radios)).
  { intros k radios; revert k; induction radios as [|r rs IH]; intros k; simpl;
      constructor; [|apply IH]. simpl.
    refine (bool_decide_unpack _ _). by vm_compute. }
  assert (Hm : forall k cs, Forall (fun step => NoDup step.2.*1) (multiSFSteps k cs)).
  { intros k cs; revert k; induction cs as [|r rs IH]; intros k; simpl;
      constructor; [|apply IH]. simpl.
    refine (bool_decide_unpack _ _). by vm_compute. }
  unfold mergeSteps. rewrite !Forall_app. split_and!; [apply Hr|apply Hm|].
  repeat constructor; simpl; (refine (bool_decide_unpack _ _); by vm_compute).
Qed.

Lemma mergeConfig_Ok mac config newConfig config' :
  mergeConfig mac config newConfig = (config', Ok) ->
  exists gateway,
    runSteps (mergeSteps newConfig) config
      = (mkConfigFile (SX1301Conf config') (Some gateway), Ok)
    /\ GatewayConf config = Some gateway
    /\ GatewayConf config'
       = Some (<["gateway_ID" := VString (EUI64_String mac)]> gateway).
Proof.
  rewrite mergeConfig_runSteps. intros H.
  pose proof (runSteps_GatewayConf (mergeSteps newConfig) config) as Hgw.
  destruct (runSteps (mergeSteps newConfig) config) as [c [| |]]; simpl in *; try done.
  unfold updateGatewayID in H.
  destruct c as [sx [gateway|]]; simpl in *; simplify_eq/=.
  by exists gateway.
Qed.

Lemma radioSteps_lookup k radios i r :
  radios !! i = Some r -> (radioKey (k + i), radioValues r) ∈ radioSteps k radios.
Proof.
  revert k i; induction radios as [|r0 rs IH]; intros k [|i] H; simplify_eq/=.
  - rewrite Nat.add_0_r. by left.
  - right. replace (k + S i)%nat with (S k + i)%nat by lia. by apply IH.
Qed.

Lemma multiSFSteps_lookup k channels i c :
  channels !! i = Some c -> (multiSFKey (k + i), multiSFValues c) ∈ multiSFSteps k channels.
Proof.
  revert k i; induction channels as [|r0 rs IH]; intros k [|i] H; simplify_eq/=.
  - rewrite Nat.add_0_r. by left.
  - right. replace (k + S i)%nat with (S k + i)%nat by lia. by apply IH.
Qed.

Lemma mergeConfig_applied mac config newConfig config' :
  mergeConfig mac config newConfig = (config', Ok) ->
  Forall (applied config') (mergeSteps newConfig).
Proof.
  intros H. destruct (mergeConfig_Ok _ _ _ _ H) as (gateway & Hrun & _ & _).
  pose proof (runSteps_applied _ _ _ (mergeSteps_NoDup newConfig)
                (mergeSteps_fields newConfig) Hrun) as Happ.
  eapply Forall_impl; [exact Happ|]. intros step (node & Hnode & Hholds).
  by exists node.
Qed.

(** X7: after a merge which returns without an error, the document holds
    the new configuration: the map at [radio_<i>] holds [enable] and [freq]
    of radio [i], the map at [chan_multiSF_<i>] holds [enable], [radio] and
    [if] of multi-SF slot [i], the maps at [chan_Lora_std] and [chan_FSK]
    hold the five values of their slots, and [gateway_ID] of [gateway_conf]
    is the 16 hexadecimal digits of the MAC.  (No step overwrites what
    another step has written: the keys are pairwise different.) *)
Theorem mergeConfig_written (mac : EUI64) (config config' : configFile)
    (newConfig : gatewayConfiguration) :
  mergeConfig mac config newConfig = (config', Ok) ->
  (forall i r, Radios newConfig !! i = Some r ->
     exists node, sxLookup config' (radioKey i) = Some (VMap node)
       /\ holds (radioValues r) node)
  /\ (forall i c, MultiSFChannels newConfig !! i = Some c ->
        exists node, sxLookup config' (multiSFKey i) = Some (VMap node)
          /\ holds (multiSFValues c) node)
  /\ (exists node, sxLookup config' "chan_Lora_std" = Some (VMap node)
        /\ holds (loRaSTDValues (LoRaSTDChannelConfig newConfig)) node)
  /\ (exists node, sxLookup config' "chan_FSK" = Some (VMap node)
        /\ holds (fskValues (FSKChannelConfig newConfig)) node)
  /\ gatewayLookup config' "gateway_ID" = Some (VString (EUI64_String mac)).
Proof.
  intros H. pose proof (mergeConfig_applied _ _ _ _ H) as Happ.
  rewrite Forall_forall in Happ. unfold mergeSteps in Happ.
  split_and!.
  - intros i r Hr. apply (Happ (radioKey i, radioValues r)).
    apply elem_of_app. left. by apply (radioSteps_lookup 0).
  - intros i c Hc. apply (Happ (multiSFKey i, multiSFValues c)).
    apply elem_of_app. right. apply elem_of_app. left. by apply (multiSFSteps_lookup 0).
  - apply (Happ ("chan_Lora_std", _)).
    apply elem_of_app. right. apply elem_of_app. right. by left.
  - apply (Happ ("chan_FSK", _)).
    apply elem_of_app. right. apply elem_of_app. right. right. by left.
  - destruct (mergeConfig_Ok _ _ _ _ H) as (gateway & _ & _ & Hgw).
    unfold gatewayLookup. rewrite Hgw. simpl. by rewrite lookup_insert_eq.
Qed.

Lemma mergeConfig_written_witness :
  exists node,
    sxLookup (mergeConfig exampleMAC (mkConfigFile (Some exampleSX1301Conf)
                                        (Some exampleGatewayConf))
                exampleConfiguration).1 "chan_FSK" = Some (VMap node)
    /\ holds (fskValues (FSKChannelConfig exampleConfiguration)) node.
Proof.
  refine (proj1 (proj2 (proj2 (proj2
            (mergeConfig_written exampleMAC
               (mkConfigFile (Some exampleSX1301Conf) (Some exampleGatewayConf))
               _ exampleConfiguration _))))).
  vm_compute. reflexivity.
Defined.

(** X8: merging the same configuration again into a document which a
    merge has left without an error changes nothing and succeeds again. *)
Theorem mergeConfig_idempotent (mac : EUI64) (config config' : configFile)
    (newConfig : gatewayConfiguration) :
  mergeConfig mac config newConfig = (config', Ok) ->
  mergeConfig mac config' newConfig = (config', Ok).
Proof.
  intros H. pose proof (mergeConfig_applied _ _ _ _ H) as Happ.
  destruct (mergeConfig_Ok _ _ _ _ H) as (gateway & _ & _ & Hgw).
  rewrite mergeConfig_runSteps, (runSteps_again _ _ Happ). simpl.
  unfold updateGatewayID. rewrite Hgw.
  destruct config' as [sx gw]. simpl in *. rewrite Hgw.
  by rewrite insert_insert_eq.
Qed.

Lemma mergeConfig_idempotent_witness :
  let config' :=
    (mergeConfig exampleMAC
       (mkConfigFile (Some exampleSX1301Conf) (Some exampleGatewayConf))
       exampleConfiguration).1 in
  mergeConfig exampleMAC config' exampleConfiguration = (config', Ok).
Proof.
  apply (mergeConfig_idempotent exampleMAC
           (mkConfigFile (Some exampleSX1301Conf) (Some exampleGatewayConf))).
  vm_compute. reflexivity.
Defined.

(** *** The three ways the merge ends *)

(** [SX1301_conf] has a map at every key which the merge of [newConfig]
    goes through. *)
Definition nodesPresent (config : configFile) (newConfig : gatewayConfiguration)
    : Prop :=
  (forall i, (i < length (Radios newConfig))%nat ->
     isMap (index (SX1301Conf config) (radioKey i)))
  /\ (forall i, (i < length (MultiSFChannels newConfig))%nat ->
        isMap (index (SX1301Conf config) (multiSFKey i)))
  /\ isMap (index (SX1301Conf config) "chan_Lora_std")
  /\ isMap (index (SX1301Conf config) "chan_FSK").

Lemma nodesPresent_steps config newConfig :
  nodesPresent config newConfig
  <-> Forall (fun step => isMap (index (SX1301Conf config) step.1)) (mergeSteps newConfig).
Proof.
  rewrite <- (Forall_fmap fst (fun key => isMap (index (SX1301Conf config) key))).
  rewrite mergeSteps_keys, !Forall_app, !Forall_fmap, !Forall_seq, !Forall_cons.
  unfold nodesPresent, compose. simpl. split.
  - intros (Hr & Hm & Hs & Hf). split_and!; try done.
    + intros i Hi. apply Hr. lia.
    + intros i Hi. apply Hm. lia.
  - intros (Hr & Hm & Hs & Hf & _). split_and!; try done.
    + intros i Hi. apply Hr. lia.
    + intros i Hi. apply Hm. lia.
Qed.

Lemma runSteps_Ok_maps steps config :
  (runSteps steps config).2 = Ok ->
  Forall (fun step => isMap (index (SX1301Conf config) step.1)) steps.
Proof.
  revert config; induction steps as [|[key kvs] l IH]; intros config H; simpl in *;
    [constructor|].
  destruct (updateNode key kvs config) as [c [| |]] eqn:Hstep; simpl in H; try done.
  constructor; [by eapply updateNode_Ok|].
  eapply Forall_impl; [exact (IH _ H)|]. intros step Hs. simpl in *.
  pose proof (updateNode_index key kvs config step.1) as [Hiff _].
  rewrite Hstep in Hiff. simpl in Hiff. tauto.
Qed.

Lemma runSteps_outcome steps config :
  ((runSteps steps config).2 = Ok
   <-> Forall (fun step => isMap (index (SX1301Conf config) step.1)) steps)
  /\ ((exists e, (runSteps steps config).2 = Err e)
      <-> ~ Forall (fun step => isMap (index (SX1301Conf config) step.1)) steps).
Proof.
  pose proof (runSteps_Ok_maps steps config) as Hok.
  pose proof (runSteps_no_panic steps config) as Hnp.
  destruct (runSteps steps config) as [c [|e|]] eqn:Hrun; simpl in *; try done.
  - split; [tauto|]. split; [by intros [e ?]|]. intros Hn. by destruct Hn; auto.
  - apply runSteps_error in Hrun
      as (pre & key & kvs & post & -> & _ & Hbad & _).
    assert (Hn : ~ Forall (fun step => isMap (index (SX1301Conf config) step.1))
                   (pre ++ (key, kvs) :: post)).
    { intros Hall. apply Forall_app in Hall as [_ Hall].
      apply Forall_cons in Hall as [Hkey _]. done. }
    split; [split; [done|by intros ?]|]. split; [done|]. by eexists.
Qed.

(** X9: the merge ends in one of three ways, decided by the document and
    the numbers of radios and multi-SF slots.  It returns without an error
    exactly when [SX1301_conf] has a map at [radio_<i>] for every radio,
    at [chan_multiSF_<i>] for every multi-SF slot, at [chan_Lora_std] and
    at [chan_FSK], and [gateway_conf] is there; it returns an error exactly
    when one of these maps is missing; it panics exactly when the maps are
    all there and [gateway_conf] is missing. *)
Theorem mergeConfig_outcome (mac : EUI64) (config : configFile)
    (newConfig : gatewayConfiguration) :
  ((mergeConfig mac config newConfig).2 = Ok
   <-> nodesPresent config newConfig /\ GatewayConf config <> None)
  /\ ((exists e, (mergeConfig mac config newConfig).2 = Err e)
      <-> ~ nodesPresent config newConfig)
  /\ ((mergeConfig mac config newConfig).2 = Panic
      <-> nodesPresent config newConfig /\ GatewayConf config = None).
Proof.
  rewrite nodesPresent_steps, mergeConfig_runSteps.
  destruct (runSteps_outcome (mergeSteps newConfig) config) as [Hok Herr].
  pose proof (runSteps_no_panic (mergeSteps newConfig) config) as Hnp.
  pose proof (runSteps_GatewayConf (mergeSteps newConfig) config) as Hgw.
  destruct (runSteps (mergeSteps newConfig) config) as [c [|e|]]; simpl in *; try done.
  - assert (Hall : Forall (fun step => isMap (index (SX1301Conf config) step.1))
                     (mergeSteps newConfig)) by tauto.
    unfold updateGatewayID. rewrite Hgw.
    destruct (GatewayConf config) as [gateway|]; simpl.
    + split_and!; [split; [done|by intros _]| |split; [done|by intros [_ ?]]].
      split; [by intros [e ?]|tauto].
    + split_and!; [split; [done|by intros [_ ?]]| |split; [done|by intros _]].
      split; [by intros [e ?]|tauto].
  - assert (Hn : ~ Forall (fun step => isMap (index (SX1301Conf config) step.1))
                     (mergeSteps newConfig)).
    { apply Herr. by eexists. }
    split_and!; [split; [done|tauto]| |split; [done|tauto]].
    split; [done|]. by eexists.
Qed.

(** *** Entries of an earlier, longer configuration *)

Lemma mergeConfig_sxLookup_other mac config newConfig key :
  key ∉ (mergeSteps newConfig).*1 ->
  sxLookup (mergeConfig mac config newConfig).1 key = sxLookup config key.
Proof.
  intros Hkey. rewrite mergeConfig_runSteps.
  pose proof (runSteps_other (mergeSteps newConfig) config key Hkey) as Hrun.
  destruct (runSteps (mergeSteps newConfig) config) as [c [| |]]; simpl in *; try done.
  unfold updateGatewayID. by destruct (GatewayConf c).
Qed.

(** X10: the merge does not touch the entries beyond the new numbers of
    radios and of multi-SF slots: [radio_<j>] for [j] at or above the
    number of radios and [chan_multiSF_<k>] for [k] at or above the number
    of multi-SF slots are after the call what they were before it, so a
    channel which an earlier merge has enabled stays enabled. *)
Theorem mergeConfig_stale (mac : EUI64) (config : configFile)
    (newConfig : gatewayConfiguration) (j k : nat) :
  (length (Radios newConfig) <= j)%nat ->
  (length (MultiSFChannels newConfig) <= k)%nat ->
  sxLookup (mergeConfig mac config newConfig).1 (radioKey j)
    = sxLookup config (radioKey j)
  /\ sxLookup (mergeConfig mac config newConfig).1 (multiSFKey k)
     = sxLookup config (multiSFKey k).
Proof.
  intros Hj Hk. split; apply mergeConfig_sxLookup_other; rewrite mergeSteps_keys;
    rewrite !elem_of_app, !elem_of_cons, elem_of_nil, !list_elem_of_fmap.
  - intros [(i & E & Hi%elem_of_seq)|[(i & E & _)|[E|[E|[]]]]].
    + apply radioKey_inj in E. lia.
    + unfold radioKey, multiSFKey in E. by simplify_eq/=.
    + unfold radioKey in E. by simplify_eq/=.
    + unfold radioKey in E. by simplify_eq/=.
  - intros [(i & E & _)|[(i & E & Hi%elem_of_seq)|[E|[E|[]]]]].
    + unfold radioKey, multiSFKey in E. by simplify_eq/=.
    + apply multiSFKey_inj in E. lia.
    + unfold multiSFKey in E. by simplify_eq/=.
    + unfold multiSFKey in E. by simplify_eq/=.
Qed.

Lemma mergeConfig_stale_witness :
  sxLookup (mergeConfig exampleMAC
              (mkConfigFile (Some exampleSX1301Conf) (Some exampleGatewayConf))
              wideConfiguration).1 (radioKey 1)
    = None
  /\ sxLookup (mergeConfig exampleMAC
                 (mkConfigFile (Some exampleSX1301Conf) (Some exampleGatewayConf))
                 wideConfiguration).1 (multiSFKey 1)
     = Some (VMap {[ "enable" := VBool false; "radio" := VFloat64 0;
                     "if" := VFloat64 0 ]}).
Proof.
  apply (mergeConfig_stale exampleMAC
           (mkConfigFile (Some exampleSX1301Conf) (Some exampleGatewayConf))
           wideConfiguration 1 1); simpl; lia.
Defined.

(** *** From the plan to the document *)

Lemma holds_multiSF c node :
  holds (multiSFValues c) node ->
  node !! "enable" = Some (VBool (multiSFChannelConfig.Enable c))
  /\ node !! "radio" = Some (VInt (Z.of_nat (multiSFChannelConfig.Radio c)))
  /\ node !! "if" = Some (VInt (multiSFChannelConfig.IF_ c)).
Proof.
  unfold holds, multiSFValues. rewrite !Forall_cons. simpl. tauto.
Qed.

Lemma holds_radio r node :
  holds (radioValues r) node ->
  node !! "enable" = Some (VBool (radioConfig.Enable r))
  /\ node !! "freq" = Some (VInt (radioConfig.Freq r)).
Proof.
  unfold holds, radioValues. rewrite !Forall_cons. simpl. tauto.
Qed.

(** X11: when [getGatewayConfig] succeeds on a plan and the merge of its
    result into a document returns without an error, every multi-SF
    channel of the document which the merge has written is enabled and
    names, in [radio], the index [k] of a radio which the merge has written
    and enabled too, and [if] of the channel is the frequency of the
    channel minus [freq] of that radio ([int] subtraction). *)
Theorem configuration_consistent (S : Sorter) (conf : GatewayConfigPacket)
    (mac : EUI64) (config config' : configFile) (gc : gatewayConfiguration)
    (i : nat) (c : multiSFChannelConfig.t) :
  getGatewayConfig S conf = (gc, Ok) ->
  mergeConfig mac config gc = (config', Ok) ->
  MultiSFChannels gc !! i = Some c ->
  exists channel radio (k : nat) (center : Z),
    sxLookup config' (multiSFKey i) = Some (VMap channel)
    /\ channel !! "enable" = Some (VBool true)
    /\ channel !! "radio" = Some (VInt (Z.of_nat k))
    /\ channel !! "if" = Some (VInt (multiSFChannelConfig.Freq c -i center))
    /\ sxLookup config' (radioKey k) = Some (VMap radio)
    /\ radio !! "enable" = Some (VBool true)
    /\ radio !! "freq" = Some (VInt center).
Proof.
  intros Hrun Hmerge Hc. unfold getGatewayConfig in Hrun.
  pose proof (assignChannels_wellFormed _ (sortedChannels S conf) wellFormed_zero)
    as [Hen Hm _ _].
  rewrite Hrun in Hen, Hm. simpl in *.
  rewrite Forall_forall in Hm.
  destruct (Hm c) as (Hce & r & Hr & Hif); [by eapply list_elem_of_lookup_2|].
  rewrite Forall_forall in Hen.
  assert (Hre : radioConfig.Enable r = true)
    by (apply Hen; by eapply list_elem_of_lookup_2).
  pose proof (mergeConfig_applied _ _ _ _ Hmerge) as Happ.
  rewrite Forall_forall in Happ. unfold mergeSteps in Happ.
  destruct (Happ (multiSFKey i, multiSFValues c)) as (channel & Hch & Hhc).
  { apply elem_of_app. right. apply elem_of_app. left.
    by apply (multiSFSteps_lookup 0). }
  destruct (Happ (radioKey (multiSFChannelConfig.Radio c), radioValues r))
    as (radio & Hrad & Hhr).
  { apply elem_of_app. left. by apply (radioSteps_lookup 0). }
  apply holds_multiSF in Hhc as (H1 & H2 & H3).
  apply holds_radio in Hhr as (H4 & H5).
  exists channel, radio, (multiSFChannelConfig.Radio c), (radioConfig.Freq r).
  rewrite Hce in H1. rewrite Hre in H4. rewrite Hif in H3.
  by split_and!.
Qed.

Lemma configuration_consistent_witness :
  exists channel radio (k : nat) (center : Z),
    sxLookup (mergeConfig exampleMAC
                (mkConfigFile (Some exampleSX1301Conf) (Some exampleGatewayConf))
                exampleConfiguration).1 (multiSFKey 0) = Some (VMap channel)
    /\ channel !! "enable" = Some (VBool true)
    /\ channel !! "radio" = Some (VInt (Z.of_nat k))
    /\ channel !! "if" = Some (VInt (868100000 -i center))
    /\ sxLookup (mergeConfig exampleMAC
                   (mkConfigFile (Some exampleSX1301Conf) (Some exampleGatewayConf))
                   exampleConfiguration).1 (radioKey k) = Some (VMap radio)
    /\ radio !! "enable" = Some (VBool true)
    /\ radio !! "freq" = Some (VInt center).
Proof.
  apply (configuration_consistent GoSort.insertion (mkGatewayConfigPacket examplePlan)
           exampleMAC (mkConfigFile (Some exampleSX1301Conf) (Some exampleGatewayConf))
           _ exampleConfiguration 0
           (multiSFChannelConfig.mk true 0 (-400000) 868100000)).
  - vm_compute. reflexivity.
  - vm_compute. reflexivity.
  - reflexivity.
Defined.

(** ** The comments of the configuration file *)

(** [loadConfigFile] removes the comments from the bytes of the file with
    [jsonCommentRegexp.ReplaceAll(b, []byte{})] before it decodes them.
    The regular expressions of the package [regexp] are modelled as far as
    the source needs them: a sequence of items, each a class of bytes taken
    once or, greedily, any number of times.  A match is the one a
    backtracking search finds first (leftmost-first), which is how [regexp]
    defines it.  ([.] is a class of runes; no byte of a rune of several
    bytes is a newline, a slash or a star, so that on the bytes the class is
    every byte but the newline.) *)
Inductive class : Type :=
| Literal (b : byte)
| AnyButNewline.

Inductive item : Type :=
| One (c : class)
| Many (c : class).

Definition newline : byte := "010"%byte.

Definition classMatches (c : class) (b : byte) : bool :=
  match c with
  | Literal b' => Byte.eqb b b'
  | AnyButNewline => negb (Byte.eqb b newline)
  end.

(** The match of the regular expression at the beginning of [src], as the
    bytes which follow it. *)
Fixpoint matchHere (re : list item) : list byte -> option (list byte) :=
  match re with
  | [] => fun src => Some src
  | One c :: re' => fun src =>
      match src with
      | b :: src' => if classMatches c b then matchHere re' src' else None
      | [] => None
      end
  | Many c :: re' =>
      fix many (src : list byte) : option (list byte) :=
        match src with
        | b :: src' =>
            if classMatches c b then
              match many src' with
              | Some rest => Some rest
              | None => matchHere re' src
              end
            else matchHere re' src
        | [] => matchHere re' src
        end
  end.

(** [re.ReplaceAll(src, []byte{})]: the bytes of [src] without the matches
    of [re], each looked for where the one before it ends; [skip] bytes of
    the match which is being removed are still ahead.  (An empty match
    removes nothing.) *)
Fixpoint deleteMatches (re : list item) (skip : nat) (src : list byte) : list byte :=
  match src with
  | [] => []
  | b :: src' =>
      match skip with
      | S n => deleteMatches re n src'
      | O =>
          match matchHere re src with
          | Some rest =>
              match (length src - length rest)%nat with
              | S n => deleteMatches re n src'
              | O => b :: deleteMatches re 0 src'
              end
          | None => b :: deleteMatches re 0 src'
          end
      end
  end.

(** [jsonCommentRegexp], the expression [/\*.*\*/]. *)
Definition jsonCommentRegexp : list item :=
  [One (Literal "/"%byte); One (Literal "*"%byte); Many AnyButNewline;
   One (Literal "*"%byte); One (Literal "/"%byte)].

(** [b = jsonCommentRegexp.ReplaceAll(b, []byte{})] *)
Definition removeComments (b : list byte) : list byte :=
  deleteMatches jsonCommentRegexp 0 b.

(** The bytes of a string of the examples. *)
Definition bytes (s : string) : list byte := String.list_byte_of_string s.

(** *** How the expressions match *)

Lemma matchHere_Many c re src :
  matchHere (Many c :: re) src =
    match src with
    | b :: src' =>
        if classMatches c b then
          match matchHere (Many c :: re) src' with
          | Some rest => Some rest
          | None => matchHere re src
          end
        else matchHere re src
    | [] => matchHere re src
    end.
Proof. by destruct src. Qed.

Lemma matchHere_One c re src :
  matchHere (One c :: re) src =
    match src with
    | b :: src' => if classMatches c b then matchHere re src' else None
    | [] => None
    end.
Proof. done. Qed.

(** A match is a prefix of the bytes. *)
Lemma matchHere_suffix re src rest :
  matchHere re src = Some rest -> exists m, src = m ++ rest.
Proof.
  revert src rest; induction re as [|[c|c] re IH]; intros src rest.
  - intros [= ->]. by exists [].
  - rewrite matchHere_One. destruct src as [|b src]; [done|].
    destruct (classMatches c b); [|done].
    intros (m & ->)%IH. by exists (b :: m).
  - induction src as [|b src IHsrc]; rewrite matchHere_Many.
    + apply IH.
    + destruct (classMatches c b); [|apply IH].
      destruct (matchHere (Many c :: re) src) as [r|] eqn:Hr; [|apply IH].
      intros [= ->]. destruct (IHsrc eq_refl) as (m & ->). by exists (b :: m).
Qed.

(** No class of the expression matches the newline. *)
Definition newlineFree (re : list item) : Prop :=
  Forall (fun it => match it with
                    | One c | Many c => classMatches c newline = false
                    end) re.

(** A match does not go beyond the end of the line. *)
Lemma matchHere_line re line after :
  newlineFree re ->
  matchHere re (line ++ newline :: after)
  = (fun rest => rest ++ newline :: after) <$> matchHere re line.
Proof.
  intros Hfree. revert line.
  induction Hfree as [|[c|c] re Hc Hre IH]; intros line.
  - done.
  - rewrite !matchHere_One. destruct line as [|b line]; simpl.
    + by rewrite Hc.
    + destruct (classMatches c b); [|done]. apply IH.
  - induction line as [|b line IHline].
    + change ([] ++ newline :: after) with (newline :: after).
      rewrite (matchHere_Many c re (newline :: after)), Hc.
      rewrite (matchHere_Many c re []). by apply (IH []).
    + change ((b :: line) ++ newline :: after) with (b :: (line ++ newline :: after)).
      rewrite (matchHere_Many c re (b :: (line ++ newline :: after))).
      rewrite (matchHere_Many c re (b :: line)).
      destruct (classMatches c b); [|by apply (IH (b :: line))].
      rewrite IHline.
      destruct (matchHere (Many c :: re) line); simpl; [done|].
      by apply (IH (b :: line)).
Qed.

(** *** What [ReplaceAll] removes *)

Lemma deleteMatches_sublist re skip src : sublist (deleteMatches re skip src) src.
Proof.
  revert skip; induction src as [|b src IH]; intros skip; simpl; [done|].
  destruct skip as [|n]; [|by apply sublist_cons].
  destruct (matchHere re (b :: src)) as [rest|]; [|by apply sublist_skip].
  destruct (S (length src) - length rest)%nat;
    [by apply sublist_skip|by apply sublist_cons].
Qed.

Lemma deleteMatches_line re skip line after :
  newlineFree re ->
  (skip <= length line)%nat ->
  deleteMatches re skip (line ++ newline :: after)
  = deleteMatches re skip line ++ newline :: deleteMatches re 0 after.
Proof.
  intros Hfree. revert skip; induction line as [|b line IH]; intros skip Hskip.
  - simpl in Hskip. assert (skip = 0%nat) as -> by lia. simpl.
    pose proof (matchHere_line re [] after Hfree) as Hm. simpl in Hm. rewrite Hm.
    destruct (matchHere re []) as [rest|] eqn:Hnil; simpl; [|done].
    apply matchHere_suffix in Hnil as (m & Hnil).
    symmetry in Hnil. apply app_eq_nil in Hnil as [_ ->]. simpl.
    by rewrite Nat.sub_diag.
  - simpl in Hskip.
    change ((b :: line) ++ newline :: after) with (b :: (line ++ newline :: after)).
    destruct skip as [|n]; [|simpl; apply IH; lia].
    cbn [deleteMatches].
    pose proof (matchHere_line re (b :: line) after Hfree) as Hm.
    change ((b :: line) ++ newline :: after) with (b :: (line ++ newline :: after)) in Hm.
    rewrite Hm.
    destruct (matchHere re (b :: line)) as [rest|] eqn:Hrest; simpl;
      [|by rewrite IH by lia].
    apply matchHere_suffix in Hrest as (m & Hrest).
    assert (Hlen : length (b :: line) = (length m + length rest)%nat)
      by (by rewrite Hrest, length_app).
    simpl in Hlen. rewrite !length_app. simpl.
    replace (S (length line + S (length after)) - (length rest + S (length after)))%nat
      with (S (length line) - length rest)%nat by lia.
    destruct (S (length line) - length rest)%nat eqn:Hd; rewrite IH by lia; done.
Qed.

Lemma jsonCommentRegexp_newlineFree : newlineFree jsonCommentRegexp.
Proof. repeat constructor. Qed.

(** X13: removing the comments only deletes bytes, and it works line by
    line: the result for the bytes of two parts joined by a newline is the
    result for the first part, the newline, and the result for the second
    part.  A match never contains a newline, so that a comment which runs
    over several lines stays in the bytes handed to the JSON decoder. *)
Theorem removeComments_lines (before after : list byte) :
  removeComments (before ++ newline :: after)
  = removeComments before ++ newline :: removeComments after
  /\ sublist (removeComments before) before.
Proof.
  split; [|apply deleteMatches_sublist].
  apply deleteMatches_line; [apply jsonCommentRegexp_newlineFree|lia].
Qed.

(** *** Where a comment begins and ends *)

Definition slash : byte := "/"%byte.
Definition asterisk : byte := "*"%byte.

(** The bytes [pat] occur in [src]. *)
Definition occursIn (pat src : list byte) : Prop :=
  exists pre suf, src = pre ++ pat ++ suf.

Lemma occursIn_tail pat b src : ~ occursIn pat (b :: src) -> ~ occursIn pat src.
Proof. intros H (pre & suf & ->). apply H. by exists (b :: pre), suf. Qed.

(** The part of the expression after [/\*]. *)
Definition commentBody : list item :=
  [Many AnyButNewline; One (Literal asterisk); One (Literal slash)].

Lemma matchHere_comment src :
  matchHere jsonCommentRegexp src =
    match src with
    | b1 :: b2 :: src' =>
        if Byte.eqb b1 slash && Byte.eqb b2 asterisk
        then matchHere commentBody src' else None
    | _ => None
    end.
Proof.
  destruct src as [|b1 [|b2 src]]; simpl; try done.
  - by destruct (Byte.eqb b1 "/").
  - fold slash asterisk. destruct (Byte.eqb b1 slash), (Byte.eqb b2 asterisk); done.
Qed.

Lemma matchHere_close src rest :
  matchHere [One (Literal asterisk); One (Literal slash)] src = Some rest
  <-> src = asterisk :: slash :: rest.
Proof.
  destruct src as [|b1 [|b2 src]]; simpl.
  - split; [done|]. by intros [=].
  - destruct (Byte.eqb b1 asterisk); split; try done; by intros [=].
  - destruct (Byte.eqb b1 asterisk) eqn:E1; [destruct (Byte.eqb b2 slash) eqn:E2|].
    + apply byte_dec_bl in E1 as ->. apply byte_dec_bl in E2 as ->.
      split; [by intros [= ->]|by intros [= ->]].
    + split; [done|]. intros [= -> -> ->]. by vm_compute in E2.
    + split; [done|]. intros [= -> -> ->]. by vm_compute in E1.
Qed.

Lemma commentBody_None src :
  ~ occursIn [asterisk; slash] src -> matchHere commentBody src = None.
Proof.
  unfold commentBody. induction src as [|b src IH]; intros Hno; rewrite matchHere_Many.
  - done.
  - assert (Hclose : matchHere [One (Literal asterisk); One (Literal slash)] (b :: src)
                     = None).
    { destruct (matchHere _ (b :: src)) as [rest|] eqn:H; [|done].
      apply matchHere_close in H. destruct Hno. by exists [], rest. }
    rewrite Hclose, IH by (by eapply occursIn_tail). by destruct (classMatches _ b).
Qed.

(** The greedy [.*] goes to the last [*/] of the line. *)
Lemma commentBody_greedy mid after :
  newline ∉ mid ->
  ~ occursIn [asterisk; slash] after ->
  matchHere commentBody (mid ++ asterisk :: slash :: after) = Some after.
Proof.
  intros Hmid Hafter. unfold commentBody.
  induction mid as [|b mid IH]; simpl app; rewrite matchHere_Many.
  - assert (Hrest : matchHere commentBody (slash :: after) = None).
    { apply commentBody_None. intros (pre & suf & E).
      destruct pre as [|b pre]; simplify_eq/=. apply Hafter. by exists pre, suf. }
    unfold commentBody in Hrest. rewrite Hrest.
    change (classMatches AnyButNewline asterisk) with true. cbv iota.
    by apply matchHere_close.
  - apply not_elem_of_cons in Hmid as [Hb Hmid]. rewrite (IH Hmid).
    assert (classMatches AnyButNewline b = true) as ->; [|done].
    simpl. destruct (Byte.eqb b newline) eqn:E; [|done].
    apply byte_dec_bl in E. congruence.
Qed.

Lemma deleteMatches_skip re (dropped src : list byte) :
  deleteMatches re (length dropped) (dropped ++ src) = deleteMatches re 0 src.
Proof. induction dropped as [|b l IH]; simpl; [by destruct src|done]. Qed.

(** Where no match begins nothing is removed. *)
Lemma deleteMatches_none re src :
  (forall pre suf, src = pre ++ suf -> matchHere re suf = None) ->
  deleteMatches re 0 src = src.
Proof.
  induction src as [|b src IH]; intros Hnone; simpl; [done|].
  change (matchHere re (b :: src)) with (matchHere re (b :: src)).
  rewrite (Hnone [] (b :: src) eq_refl). f_equal. apply IH.
  intros pre suf ->. by apply (Hnone (b :: pre)).
Qed.

Lemma removeComments_id (src : list byte) :
  ~ occursIn [slash; asterisk] src \/ ~ occursIn [asterisk; slash] src ->
  removeComments src = src.
Proof.
  intros Hno. apply deleteMatches_none. intros pre suf ->.
  rewrite matchHere_comment.
  destruct suf as [|b1 [|b2 suf]]; try done.
  destruct (Byte.eqb b1 slash) eqn:E1; [|done].
  destruct (Byte.eqb b2 asterisk) eqn:E2; [|done]. simpl.
  apply byte_dec_bl in E1 as ->. apply byte_dec_bl in E2 as ->.
  destruct Hno as [Hno|Hno].
  - destruct Hno. by exists pre, suf.
  - apply commentBody_None. intros (pre' & suf' & ->).
    apply Hno. exists (pre ++ slash :: asterisk :: pre'), suf'.
    by rewrite <- !app_assoc.
Qed.

(** X14: bytes in which [/*] does not occur, or in which [*/] does not
    occur, are left as they are: an opened comment which is not closed is
    not removed. *)
Theorem removeComments_unchanged (src : list byte) :
  ~ occursIn [slash; asterisk] src \/ ~ occursIn [asterisk; slash] src ->
  removeComments src = src.
Proof. apply removeComments_id. Qed.

(** A test for the occurrence of two bytes in a row. *)
Fixpoint hasPair (x y : byte) (src : list byte) : bool :=
  match src with
  | a :: (b :: _) as src' => (Byte.eqb a x && Byte.eqb b y) || hasPair x y src'
  | _ => false
  end.

Lemma occursIn_hasPair x y src : occursIn [x; y] src -> hasPair x y src = true.
Proof.
  assert (Hcons : forall a l, hasPair x y l = true -> hasPair x y (a :: l) = true).
  { intros a [|b l]; [done|]. intros H.
    change (hasPair x y (a :: b :: l))
      with ((Byte.eqb a x && Byte.eqb b y) || hasPair x y (b :: l)).
    rewrite H. apply orb_true_r. }
  intros (pre & suf & ->). induction pre as [|a pre IH].
  - simpl. by rewrite !(byte_dec_lb eq_refl).
  - by apply Hcons.
Qed.

Lemma removeComments_unchanged_witness :
  removeComments (bytes "[1, 2] /* to do") = bytes "[1, 2] /* to do".
Proof.
  apply removeComments_unchanged. right.
  intros H%occursIn_hasPair. vm_compute in H. discriminate H.
Defined.

Lemma deleteMatches_before pre rest :
  ~ occursIn [slash; asterisk] pre ->
  head rest <> Some asterisk ->
  deleteMatches jsonCommentRegexp 0 (pre ++ rest)
  = pre ++ deleteMatches jsonCommentRegexp 0 rest.
Proof.
  intros Hpre Hrest. induction pre as [|b pre IH]; [done|].
  change ((b :: pre) ++ rest) with (b :: (pre ++ rest)). cbn [deleteMatches].
  assert (Hnone : matchHere jsonCommentRegexp (b :: (pre ++ rest)) = None).
  { rewrite matchHere_comment.
    destruct (pre ++ rest) as [|b2 t] eqn:E; [done|].
    destruct (Byte.eqb b slash) eqn:E1; [|done].
    destruct (Byte.eqb b2 asterisk) eqn:E2; [|done].
    apply byte_dec_bl in E1 as ->. apply byte_dec_bl in E2 as ->.
    destruct pre as [|b' pre]; simpl in E.
    - rewrite E in Hrest. done.
    - simplify_eq. destruct Hpre. by exists [], pre. }
  rewrite Hnone. simpl. f_equal. apply IH. by eapply occursIn_tail.
Qed.

(** A match is removed, and the search goes on behind it. *)
Lemma deleteMatches_match re m rest :
  m <> [] ->
  matchHere re (m ++ rest) = Some rest ->
  deleteMatches re 0 (m ++ rest) = deleteMatches re 0 rest.
Proof.
  destruct m as [|b m]; [done|]. intros _ Hmatch.
  change ((b :: m) ++ rest) with (b :: (m ++ rest)) in *.
  cbn [deleteMatches]. rewrite Hmatch.
  replace (length (b :: (m ++ rest)) - length rest)%nat with (S (length m))
    by (simpl; rewrite length_app; lia).
  apply deleteMatches_skip.
Qed.

(** X15: on a line, everything from the first [/*] to the last [*/] is
    removed, whatever lies between them: for bytes [pre] without [/*],
    bytes [mid] without a newline and bytes [post] without [*/], the
    result for [pre /* mid */ post] is [pre post].  What stands between two
    comments of one line is removed with them. *)
Theorem removeComments_greedy (pre mid post : list byte) :
  ~ occursIn [slash; asterisk] pre ->
  newline ∉ mid ->
  ~ occursIn [asterisk; slash] post ->
  removeComments (pre ++ [slash; asterisk] ++ mid ++ [asterisk; slash] ++ post)
  = pre ++ post.
Proof.
  intros Hpre Hmid Hpost. unfold removeComments.
  rewrite deleteMatches_before by done. f_equal.
  replace ([slash; asterisk] ++ mid ++ [asterisk; slash] ++ post)
    with ((slash :: asterisk :: mid ++ [asterisk; slash]) ++ post)
    by (simpl; by rewrite <- app_assoc).
  rewrite deleteMatches_match.
  - apply removeComments_id. by right.
  - done.
  - replace ((slash :: asterisk :: mid ++ [asterisk; slash]) ++ post)
      with (slash :: asterisk :: (mid ++ asterisk :: slash :: post))
      by (simpl; by rewrite <- app_assoc).
    rewrite matchHere_comment.
    change (Byte.eqb slash slash && Byte.eqb asterisk asterisk) with true. cbv iota.
    by apply commentBody_greedy.
Qed.

Lemma removeComments_greedy_witness :
  removeComments (bytes "{ " ++ [slash; asterisk] ++ bytes " a */ 'x': 1, /* b "
                  ++ [asterisk; slash] ++ bytes " 'y': 2 }")
  = bytes "{ " ++ bytes " 'y': 2 }".
Proof.
  apply removeComments_greedy.
  - intros H%occursIn_hasPair. vm_compute in H. discriminate H.
  - intros H%list_elem_of_In. vm_compute in H. intuition discriminate.
  - intros H%occursIn_hasPair. vm_compute in H. discriminate H.
Defined.

(** ** The restart of the packet forwarder *)

(** A string of the restart command is the sequence of its runes (code
    points), which is what [strings.Fields] looks at; the string is taken to
    be valid UTF-8. *)
Definition rune : Type := N.

(** [unicode.IsSpace]: the white space of Latin-1 and of the other
    scripts. *)
Definition isSpace (r : rune) : bool :=
  ((9 <=? r) && (r <=? 13) || (r =? 32) || (r =? 133) || (r =? 160)
   || (r =? 5760) || (8192 <=? r) && (r <=? 8202) || (r =? 8232) || (r =? 8233)
   || (r =? 8239) || (r =? 8287) || (r =? 12288))%N.

(** [strings.Fields]: the maximal runs of runes which are not white space;
    [word] holds the runes of the field which is being read. *)
Fixpoint fieldsFrom (word : list rune) (s : list rune) : list (list rune) :=
  match s with
  | [] => match word with [] => [] | _ => [word] end
  | r :: s' =>
      if isSpace r then
        match word with
        | [] => fieldsFrom [] s'
        | _ => word :: fieldsFrom [] s'
        end
      else fieldsFrom (word ++ [r]) s'
  end.

Definition Fields (s : list rune) : list (list rune) := fieldsFrom [] s.

(** The errors of [invokePFRestart]; [cause] is the error of
    [exec.Command(...).Output()]. *)
Inductive restartError (E : Type) : Type :=
| ErrNoRestartCommand  (* "gateway: no packet-forwarder restart command configured" *)
| ErrExecuteCommand (cause : E). (* "execute command error" *)
Arguments ErrNoRestartCommand {E}.
Arguments ErrExecuteCommand {E} cause.

(** [invokePFRestart], for the outcome [Output name args] of running the
    program [name] with the arguments [args] ([None]: no error).  The result
    has the programs which have been run, with their arguments, and the
    error which is returned. *)
Definition invokePFRestart {E : Type}
    (Output : list rune -> list (list rune) -> option E) (cmd : list rune)
    : list (list rune * list (list rune)) * option (restartError E) :=
  match Fields cmd with
  | [] => ([], Some ErrNoRestartCommand)
  | name :: args =>
      ([(name, args)],
       match Output name args with
       | Some err => Some (ErrExecuteCommand err)
       | None => None
       end)
  end.

Lemma fieldsFrom_concat word s :
  concat (fieldsFrom word s) = word ++ List.filter (fun r => negb (isSpace r)) s.
Proof.
  revert word; induction s as [|r s IH]; intros word; simpl.
  - destruct word; simpl; by rewrite ?app_nil_r.
  - destruct (isSpace r); simpl.
    + destruct word; simpl; rewrite IH; done.
    + rewrite IH. by rewrite <- app_assoc.
Qed.

Lemma fieldsFrom_words word s :
  Forall (fun r => isSpace r = false) word ->
  Forall (fun field => field <> [] /\ Forall (fun r => isSpace r = false) field)
    (fieldsFrom word s).
Proof.
  revert word; induction s as [|r s IH]; intros word Hword; simpl.
  - destruct word; [constructor|]. constructor; [done|constructor].
  - destruct (isSpace r) eqn:Hr.
    + destruct word; [by apply IH|]. constructor; [done|]. by apply IH.
    + apply IH. apply Forall_app. split; [done|]. constructor; [done|constructor].
Qed.

Lemma fieldsFrom_nil word s :
  fieldsFrom word s = [] <-> word = [] /\ Forall (fun r => isSpace r = true) s.
Proof.
  revert word; induction s as [|r s IH]; intros word; simpl.
  - destruct word; split; try done. by intros [? _].
  - rewrite Forall_cons. destruct (isSpace r) eqn:Hr.
    + destruct word.
      * rewrite IH. tauto.
      * split; [done|]. by intros [? _].
    + rewrite IH. split.
      * intros [H _]. by destruct word.
      * intros [_ [? _]]. done.
Qed.

(** X16: [invokePFRestart] returns the "no restart command configured"
    error exactly when the command is empty or has white space only, and it
    runs no program then. *)
Theorem invokePFRestart_blank {E : Type}
    (Output : list rune -> list (list rune) -> option E) (cmd : list rune) :
  ((invokePFRestart Output cmd).2 = Some ErrNoRestartCommand
   <-> Forall (fun r => isSpace r = true) cmd)
  /\ (Forall (fun r => isSpace r = true) cmd -> (invokePFRestart Output cmd).1 = []).
Proof.
  unfold invokePFRestart, Fields.
  pose proof (fieldsFrom_nil [] cmd) as Hnil.
  destruct (fieldsFrom [] cmd) as [|name args]; simpl.
  - split; [|done]. split; [intros _; by apply Hnil|done].
  - assert (Hn : ~ Forall (fun r => isSpace r = true) cmd).
    { intros H. discriminate (proj2 Hnil (conj eq_refl H)). }
    split; [|done]. split; [|done]. by destruct (Output name args).
Qed.

(** X17: for a command of more than white space [invokePFRestart] runs one
    program, once: the first field of the command with the other fields
    as arguments.  The fields are not empty, have no white space in them
    (quotes in the command do not keep words together), and are, one after
    the other, the command without its white space.  The error of the run,
    if any, is returned as the cause of the "execute command" error. *)
Theorem invokePFRestart_runs {E : Type}
    (Output : list rune -> list (list rune) -> option E) (cmd : list rune) :
  ~ Forall (fun r => isSpace r = true) cmd ->
  exists name args,
    (invokePFRestart Output cmd).1 = [(name, args)]
    /\ (invokePFRestart Output cmd).2 = ErrExecuteCommand <$> Output name args
    /\ Forall (fun field => field <> [] /\ Forall (fun r => isSpace r = false) field)
         (name :: args)
    /\ concat (name :: args) = List.filter (fun r => negb (isSpace r)) cmd.
Proof.
  intros Hcmd. unfold invokePFRestart, Fields.
  pose proof (fieldsFrom_nil [] cmd) as Hnil.
  pose proof (fieldsFrom_words [] cmd (Forall_nil_2 _)) as Hwords.
  pose proof (fieldsFrom_concat [] cmd) as Hcat.
  destruct (fieldsFrom [] cmd) as [|name args]; simpl.
  - destruct Hcmd. by apply Hnil.
  - exists name, args. by destruct (Output name args).
Qed.

(** The runes of a string of the examples. *)
Definition runes (s : string) : list rune := Byte.to_N <$> bytes s.

Lemma invokePFRestart_runs_witness :
  exists name args,
    (invokePFRestart (fun _ _ => @None unit) (runes "sh -c 'a  b'")).1 = [(name, args)]
    /\ (invokePFRestart (fun _ _ => @None unit) (runes "sh -c 'a  b'")).2
       = ErrExecuteCommand <$> None
    /\ Forall (fun field => field <> [] /\ Forall (fun r => isSpace r = false) field)
         (name :: args)
    /\ concat (name :: args)
       = List.filter (fun r => negb (isSpace r)) (runes "sh -c 'a  b'").
Proof.
  apply (invokePFRestart_runs (fun _ _ => @None unit) (runes "sh -c 'a  b'")).
  intros H. apply Forall_cons in H as [H _]. vm_compute in H. discriminate H.
Defined.
